(** * Pieruccini Seguros, script.js: a verification development

    A shallow embedding of the page script (src/script.js) and the
    properties its specification states about it, followed by further
    properties of the code (marked X1, X2, ...).

    Conventions of the embedding
    - a JavaScript string is the list of its UTF-16 code units, each a
      number in [N]; the regular expressions of the script carry no [u]
      flag, so they too work on code units;
    - a regular expression literal is embedded as data (a list of
      quantified character classes) and run by a backtracking matcher
      that tries the greedy choice first, as the ECMAScript matcher does;
    - a JavaScript number, where the script computes with one, is
      modelled twice: as an exact rational, for what holds of every
      input, and as a binary64 float of the kernel, for what rounding
      does to it;
    - DOM state is explicit: every method takes the state it reads and
      returns the state it leaves; timers are a queue of callbacks with
      their due times, run by a clock. *)

From stdpp Require Import gmap.
From Stdlib Require Import Ascii String.
From Stdlib Require Import List Bool Arith ZArith NArith QArith Qround Qminmax.
From Stdlib Require Import Floats.
From Stdlib Require Uint63.
From Stdlib Require Import Sorted Lia Lqa.
Import ListNotations.

Close Scope Q_scope.
Set Implicit Arguments.
#[local] Set Warnings "-clear-no-such-hyp".

(* ================================================================== *)
(** * JavaScript strings *)

Module JS.

Abbreviation char := N.
Abbreviation jsstring := (list char).

(** A string literal of the source, as code units. *)
Definition str (s : String.string) : jsstring :=
  map N_of_ascii (String.list_ascii_of_string s).
Arguments str s%_string.

Definition ch (a : ascii) : char := N_of_ascii a.
Arguments ch a%_char.

(** slice(0, n) *)
Definition slice0 (n : nat) (s : jsstring) : jsstring := firstn n s.

(** [\d] : the ten ASCII digits. *)
Definition isDigit (c : char) : bool := ((48 <=? c) && (c <=? 57))%N.

(** [\D] *)
Definition isNonDigit (c : char) : bool := negb (isDigit c).

(** LineTerminator: LF, CR, LS, PS. *)
Definition isLineTerminator (c : char) : bool :=
  ((c =? 10) || (c =? 13) || (c =? 8232) || (c =? 8233))%N.

(** WhiteSpace: TAB, VT, FF, SP, NBSP, ZWNBSP and the Zs category. *)
Definition isWhiteSpaceOnly (c : char) : bool :=
  ((c =? 9) || (c =? 11) || (c =? 12) || (c =? 32) || (c =? 160)
   || (c =? 5760) || ((8192 <=? c) && (c <=? 8202))
   || (c =? 8239) || (c =? 8287) || (c =? 12288) || (c =? 65279))%N.

(** [\s], also what String.prototype.trim removes. *)
Definition isSpace (c : char) : bool := isWhiteSpaceOnly c || isLineTerminator c.

(** [.] without the [s] flag: anything but a line terminator. *)
Definition isDot (c : char) : bool := negb (isLineTerminator c).

Fixpoint dropWhile (p : char -> bool) (s : jsstring) : jsstring :=
  match s with
  | [] => []
  | c :: s' => if p c then dropWhile p s' else s
  end.

Definition trimStart (s : jsstring) : jsstring := dropWhile isSpace s.
Definition trimEnd (s : jsstring) : jsstring := rev (dropWhile isSpace (rev s)).
Definition trim (s : jsstring) : jsstring := trimEnd (trimStart s).

Definition eqb (a b : jsstring) : bool :=
  if list_eq_dec N.eq_dec a b then true else false.

(** Truthiness of a string: non-empty. *)
Definition truthy (s : jsstring) : bool :=
  match s with [] => false | _ => true end.

End JS.
Import JS.

(* ================================================================== *)
(** * Regular expressions of the script *)

Module Regex.

(** One quantified character class, optionally a capture group:
    [(\d{2})] is [Piece isDigit 2 (Some 2) true]. *)
Record piece := Piece {
  cls : char -> bool;
  lo : nat;
  hi : option nat;
  cap : bool
}.

(** [/^ pieces /] or [/^ pieces $/], or without the caret. *)
Record regex := Regex {
  caret : bool;
  pieces : list piece;
  dollar : bool
}.

Definition more (h : option nat) : bool :=
  match h with Some 0 => false | _ => true end.

Definition less (h : option nat) : option nat := option_map pred h.

Definition within (h : option nat) (n : nat) : Prop :=
  match h with Some m => n <= m | None => True end.

Section Matcher.
Variable R : Type.

(** Greedy repetition with backtracking: consume one more code unit of
    the class when allowed and when the rest of the pattern then
    matches; otherwise stop here, if the lower bound is met. [acc] is
    what this repetition consumed so far, last unit first. *)
Fixpoint rep (c : char -> bool) (l : nat) (h : option nat)
    (k : jsstring -> jsstring -> option R) (acc s : jsstring) : option R :=
  let stop := match l with O => k (rev acc) s | S _ => None end in
  match s with
  | x :: s' =>
      if c x && more h then
        match rep c (pred l) (less h) k (x :: acc) s' with
        | Some r => Some r
        | None => stop
        end
      else stop
  | [] => stop
  end.
End Matcher.

(** Match the pieces at the start of [s]: the captures, in order, and
    the part of [s] after the match. *)
Fixpoint exec (ps : list piece) (dol : bool) (caps : list jsstring)
    (s : jsstring) : option (list jsstring * jsstring) :=
  match ps with
  | [] => if dol && truthy s then None else Some (rev caps, s)
  | p :: ps' =>
      rep (cls p) (lo p) (hi p)
        (fun m rest => exec ps' dol (if cap p then m :: caps else caps) rest)
        [] s
  end.

(** The first match, scanning start positions from the left; with a
    caret only position 0 is a candidate. Result: what precedes the
    match, the captures, what follows it. *)
Fixpoint search (r : regex) (pre s : jsstring)
    : option (jsstring * list jsstring * jsstring) :=
  match exec (pieces r) (dollar r) [] s with
  | Some (caps, rest) => Some (rev pre, caps, rest)
  | None =>
      if caret r then None
      else match s with
           | [] => None
           | x :: s' => search r (x :: pre) s'
           end
  end.

(** RegExp.prototype.test *)
Definition test (r : regex) (s : jsstring) : bool :=
  match search r [] s with Some _ => true | None => false end.

(** Replacement templates: literal text and [$n]. *)
Inductive tok := TLit (t : jsstring) | TGroup (n : nat).

Definition expand (tpl : list tok) (caps : list jsstring) : jsstring :=
  concat (map (fun t => match t with
                        | TLit l => l
                        | TGroup n => nth (pred n) caps []
                        end) tpl).

(** String.prototype.replace with a regex without the [g] flag. *)
Definition replace (r : regex) (tpl : list tok) (s : jsstring) : jsstring :=
  match search r [] s with
  | Some (pre, caps, rest) => pre ++ expand tpl caps ++ rest
  | None => s
  end.

(** String.prototype.replace with the [g] flag, for a regex that is one
    class matched once (as [/\D/g]): every position is tried in turn; a
    match consumes exactly the unit at that position. *)
Fixpoint replaceAll1 (c : char -> bool) (repl : jsstring) (s : jsstring)
    : jsstring :=
  match s with
  | [] => []
  | x :: s' =>
      match exec [Piece c 1 (Some 1) false] false [] s with
      | Some (_, _) => repl ++ replaceAll1 c repl s'
      | None => x :: replaceAll1 c repl s'
      end
  end.

End Regex.
Import Regex.

(* ================================================================== *)
(** * FormHandler: the phone mask and the field validators *)

Module FormHandler.

Definition digits (n : nat) (c : bool) : piece := Piece isDigit n (Some n) c.
Definition lit (a : ascii) : piece := Piece (N.eqb (ch a)) 1 (Some 1) false.
Arguments lit a%_char.

(** [[^\s@]] *)
Definition notSpaceAt (c : char) : bool := negb (isSpace c || (c =? ch "@")%N).

(** [/^(\d{2})(\d{5})(\d{4}).*/] and ['($1) $2-$3'] *)
Definition reFull : regex :=
  Regex true [digits 2 true; digits 5 true; digits 4 true;
              Piece isDot 0 None false] false.
Definition tplFull : list tok :=
  [TLit (str "("); TGroup 1; TLit (str ") "); TGroup 2; TLit (str "-"); TGroup 3].

(** [/^(\d{2})(\d{0,5})/] and ['($1) $2'] *)
Definition rePartial : regex :=
  Regex true [digits 2 true; Piece isDigit 0 (Some 5) true] false.
Definition tplPartial : list tok :=
  [TLit (str "("); TGroup 1; TLit (str ") "); TGroup 2].

(** The regex of line 339, a caret and one group holding [\d] starred,
    and its replacement ['($1']. *)
Definition reOpen : regex := Regex true [Piece isDigit 0 None true] false.
Definition tplOpen : list tok := [TLit (str "("); TGroup 1].

(** [/^[^\s@]+@[^\s@]+\.[^\s@]+$/] *)
Definition emailRegex : regex :=
  Regex true [Piece notSpaceAt 1 None false; lit "@";
              Piece notSpaceAt 1 None false; lit ".";
              Piece notSpaceAt 1 None false] true.

(** [/^\(\d{2}\) \d{5}-\d{4}$/] *)
Definition phoneRegex : regex :=
  Regex true [lit "("; digits 2 false; lit ")"; lit " ";
              digits 5 false; lit "-"; digits 4 false] true.

(** maskPhone(e): from [e.target.value] to the value written back. *)
Definition maskPhone (raw : jsstring) : jsstring :=
  let value := replaceAll1 isNonDigit [] raw in
  let value := if 11 <? length value then slice0 11 value else value in
  if 6 <? length value then replace reFull tplFull value
  else if 2 <? length value then replace rePartial tplPartial value
  else if 0 <? length value then replace reOpen tplOpen value
  else value.

(** ** Form fields *)

(** The controls a [.form__input] can be. [type] and [tagName] are the
    DOM properties of those names: a select element never has the type
    of an input. *)
Inductive control :=
| Input (type_ : jsstring)
| Select (multiple : bool)
| Textarea.

Definition tagName (c : control) : jsstring :=
  match c with
  | Input _ => str "INPUT"
  | Select _ => str "SELECT"
  | Textarea => str "TEXTAREA"
  end.

Definition type (c : control) : jsstring :=
  match c with
  | Input t => t
  | Select false => str "select-one"
  | Select true => str "select-multiple"
  | Textarea => str "textarea"
  end.

(** Modelled from the spec: the page markup (index.html) is not part of
    the sources. Following the data model of the specification, each
    field has its own derived valid/invalid flag: every [.form__input]
    sits alone in its parent group, and [groupError] is the presence of
    the class [form__group--error] on that parent. [defaultValue] is
    what [form.reset()] restores. *)
Record field := Field {
  control_ : control;
  required : bool;
  value : jsstring;
  defaultValue : jsstring;
  groupError : bool
}.

Definition setGroupError (b : bool) (f : field) : field :=
  Field (control_ f) (required f) (value f) (defaultValue f) b.

Definition setValue (v : jsstring) (f : field) : field :=
  Field (control_ f) (required f) v (defaultValue f) (groupError f).

(** validateField(field): the verdict and the field with its group's
    error class as the method leaves it. *)
Definition validateField (f : field) : bool * field :=
  let type := type (control_ f) in
  let value := trim (value f) in
  let isValid := true in
  let f := setGroupError false f in
  let isValid := if required f && negb (truthy value) then false else isValid in
  let isValid :=
    if eqb type (str "email") && truthy value then test emailRegex value
    else isValid in
  let isValid :=
    if eqb type (str "tel") && truthy value then test phoneRegex value
    else isValid in
  let isValid :=
    if eqb (tagName (control_ f)) (str "SELECT") && required f
    then negb (eqb value [])
    else isValid in
  let f := if negb isValid then setGroupError true f else f in
  (isValid, f).

(** The loop of validateForm: [isValid] is the flag accumulated so far. *)
Fixpoint validateEach (inputs : list field) (isValid : bool)
    : bool * list field :=
  match inputs with
  | [] => (isValid, [])
  | input :: rest =>
      let (ok, input') := validateField input in
      let (v, rest') := validateEach rest (if negb ok then false else isValid) in
      (v, input' :: rest')
  end.

Definition validateForm (inputs : list field) : bool * list field :=
  validateEach inputs true.

(** form.querySelector('.form__group--error .form__input'): the index of
    the first input, in document order, whose group bears the class. *)
Fixpoint firstErrorFrom (i : nat) (inputs : list field) : option nat :=
  match inputs with
  | [] => None
  | f :: rest => if groupError f then Some i else firstErrorFrom (S i) rest
  end.

Definition firstError (inputs : list field) : option nat :=
  firstErrorFrom 0 inputs.

(** ** Submission *)

(** The callbacks handed to setTimeout, with what their closures hold. *)
Inductive callback :=
| SubmitDone (originalText : jsstring)
| HideFeedback.

Record button := Button { innerHTML : jsstring; disabled : bool }.

(** What handleSubmit reads and writes, on a page that has the form's
    submit button and the two feedback elements: the form's inputs, its
    submit button, the two feedback elements' [style.display], the focused
    input, whether the submit event's default action (the browser's own
    submission of the form) was prevented, the scrolls requested, and
    the timers pending with the time each is due at. *)
Record world := World {
  inputs : list field;
  submitBtn : button;
  feedbackDisplay : jsstring;
  successDisplay : jsstring;
  focused : option nat;
  defaultPrevented : bool;
  scrolled : nat;
  now : N;
  timers : list (N * callback)
}.

Definition setTimeout (cb : callback) (delay : N) (w : world) : world :=
  World (inputs w) (submitBtn w) (feedbackDisplay w) (successDisplay w)
        (focused w) (defaultPrevented w) (scrolled w) (now w)
        (timers w ++ [((now w + delay)%N, cb)]).

Definition reset (f : field) : field := setValue (defaultValue f) f.

(** handleSubmit(e) *)
Definition handleSubmit (w : world) : world :=
  let prevented := true in
  let (ok, inputs') := validateForm (inputs w) in
  if negb ok then
    let focus := match firstError inputs' with
                 | Some i => Some i
                 | None => focused w
                 end in
    World inputs' (submitBtn w) (feedbackDisplay w) (successDisplay w)
          focus prevented (scrolled w) (now w) (timers w)
  else
    let originalText := innerHTML (submitBtn w) in
    let btn := Button (str "<span>Enviando...</span>") true in
    setTimeout (SubmitDone originalText) 2000
      (World inputs' btn (feedbackDisplay w) (successDisplay w)
             (focused w) prevented (scrolled w) (now w) (timers w)).

(** Running one timer callback. *)
Definition fire (cb : callback) (w : world) : world :=
  match cb with
  | SubmitDone originalText =>
      let w1 :=
        World (map reset (inputs w)) (Button originalText false)
              (str "block") (str "flex")
              (focused w) (defaultPrevented w) (scrolled w) (now w) (timers w) in
      let w2 := setTimeout HideFeedback 5000 w1 in
      World (inputs w2) (submitBtn w2) (feedbackDisplay w2) (successDisplay w2)
            (focused w2) (defaultPrevented w2) (S (scrolled w2)) (now w2) (timers w2)
  | HideFeedback =>
      World (inputs w) (submitBtn w) (str "none") (str "none")
            (focused w) (defaultPrevented w) (scrolled w) (now w) (timers w)
  end.

(** ** The timer queue *)

(** The pending timer that runs next: the earliest due, and among
    timers due together the one registered first. *)
Fixpoint popEarliest (ts : list (N * callback))
    : option ((N * callback) * list (N * callback)) :=
  match ts with
  | [] => None
  | t :: r =>
      match popEarliest r with
      | Some (m, r') =>
          if (fst m <? fst t)%N then Some (m, t :: r') else Some (t, r)
      | None => Some (t, [])
      end
  end.

Definition setClock (t : N) (ts : list (N * callback)) (w : world) : world :=
  World (inputs w) (submitBtn w) (feedbackDisplay w) (successDisplay w)
        (focused w) (defaultPrevented w) (scrolled w) t ts.

(** Let the clock reach [t], running every timer that falls due on the
    way, each at its due time. [None]: more timers fell due than [fuel]
    allows for. *)
Fixpoint runUntil (fuel : nat) (t : N) (w : world) : option world :=
  match popEarliest (timers w) with
  | Some ((due, cb), rest) =>
      if (due <=? t)%N then
        match fuel with
        | O => None
        | S fuel' => runUntil fuel' t (fire cb (setClock (N.max (now w) due) rest w))
        end
      else Some (setClock t (timers w) w)
  | None => Some (setClock t (timers w) w)
  end.

End FormHandler.
Import FormHandler.

(* ================================================================== *)
(** * The counter animations *)

Module Counters.

(** The two routines are written once, over the arithmetic they run
    on: the numbers, how a number put in [textContent] reads, addition,
    the comparison [<], Math.min and Math.floor. *)
Section Arithmetic.
Variables num text : Type.
Variable plus : num -> num -> num.
Variable below : num -> num -> bool.
Variable minimum : num -> num -> num.
Variable floorText : num -> text.
Variable target : num.
Variable targetText : text.
Variable step : num.

(** One call of an [updateCounter] closure: the new [current], the
    values assigned to [element.textContent] in order, and whether
    another animation frame was requested. *)
Definition frame : Type := num * list text * bool.

(** updateCounter of ScrollReveal.animateCounter *)
Definition updateCounterSR (current : num) : frame :=
  let current := plus current step in
  if below current target
  then (current, [floorText current], true)
  else (current, [targetText], false).

(** updateCounter of AnimatedCounters.animateValue *)
Definition updateCounterAC (current : num) : frame :=
  let current := minimum (plus current step) target in
  let shown := floorText current in
  if below current target
  then (current, [shown], true)
  else (current, [shown; targetText], false).

(** The animation: the first call is made at once, each further call by
    the animation frame the previous one requested. The result lists
    the assignments of each call, and tells whether the last call made
    requested no further frame (the animation is over) within [fuel]
    calls. *)
Fixpoint animate (upd : num -> frame) (fuel : nat) (current : num)
    : list (list text) * bool :=
  match fuel with
  | O => ([], false)
  | S fuel' =>
      match upd current with
      | (current', writes, true) =>
          let (fs, fin) := animate upd fuel' current' in (writes :: fs, fin)
      | (_, writes, false) => ([writes], true)
      end
  end.

(** What the element shows once a call has returned: the last value
    assigned during it. *)
Fixpoint lastOnly (writes : list text) : list text :=
  match writes with
  | [] => []
  | [x] => [x]
  | _ :: rest => lastOnly rest
  end.

Definition displayed (run : list (list text) * bool) : list text :=
  concat (map lastOnly (fst run)).

(** Every value assigned to [element.textContent], in order. *)
Definition assigned (run : list (list text) * bool) : list text :=
  concat (fst run).
End Arithmetic.

(** ** Exact arithmetic

    Numbers as rationals: what the routines compute when no operation
    rounds. *)

Definition Qltb (x y : Q) : bool := negb (Qle_bool y x).

(** [const duration = 2000] *)
Definition duration : Q := 2000.

(** [target / (duration / 16)] *)
Definition stepOf (target : Z) : Q := (inject_Z target / (duration / 16))%Q.

(** ScrollReveal.animateCounter(element), [target] being what parseInt
    made of the element's [data-counter]. *)
Definition animateCounter (target : Z) (fuel : nat) : list (list Z) * bool :=
  let step := stepOf target in
  animate (updateCounterSR Qplus Qltb Qfloor (inject_Z target) target step)
          fuel 0%Q.

(** AnimatedCounters.animateValue(element) *)
Definition animateValue (target : Z) (fuel : nat) : list (list Z) * bool :=
  let step := stepOf target in
  animate (updateCounterAC Qplus Qltb Qmin Qfloor (inject_Z target) target step)
          fuel 0%Q.

(** ** Binary64 arithmetic

    Numbers as the kernel's floats, which are IEEE 754 binary64 with
    rounding to nearest, as JavaScript's are. A number is shown as
    itself. *)

(** Math.min of two numbers: NaN if either is, and -0 below +0. *)
Definition mathMin (x y : float) : float :=
  if (x <? y)%float then x
  else if (y <? x)%float then y
  else if (x =? y)%float then (if (1 / x <? 0)%float then x else y)
  else nan.

(** Math.floor, read off the mantissa and the exponent: a number with
    no fractional bits is its own floor; otherwise the mantissa is cut
    at the binary point, and one is added to the magnitude of a
    negative number. *)
Definition mathFloor (x : float) : float :=
  match Prim2SF x with
  | S754_finite s m e =>
      if (0 <=? e)%Z then x
      else
        let q := Z.shiftr (Z.pos m) (- e) in
        let whole := (Z.shiftl q (- e) =? Z.pos m)%Z in
        let r := of_uint63 (Uint63.of_Z (if s && negb whole then q + 1 else q)) in
        if s then (- r)%float else r
  | _ => x
  end.

(** The number parseInt makes of the digits of an integer below 2^53. *)
Definition numberOf (z : Z) : float := of_uint63 (Uint63.of_Z z).

Definition stepOfF (target : float) : float := (target / (2000 / 16))%float.

Definition animateCounterF (target : float) (fuel : nat)
    : list (list float) * bool :=
  let step := stepOfF target in
  animate (updateCounterSR PrimFloat.add PrimFloat.ltb mathFloor target target step)
          fuel 0%float.

Definition animateValueF (target : float) (fuel : nat)
    : list (list float) * bool :=
  let step := stepOfF target in
  animate (updateCounterAC PrimFloat.add PrimFloat.ltb mathMin mathFloor
                           target target step)
          fuel 0%float.

(** Non-decreasing, pair by neighbouring pair. *)
Fixpoint ascending (l : list float) : bool :=
  match l with
  | x :: (y :: _) as rest => (x <=? y)%float && ascending rest
  | _ => true
  end.

End Counters.
Import Counters.

(* ================================================================== *)
(** * Navigation *)

Module Navigation.

(** The component's own flag and the three pieces of DOM state its menu
    methods write, on a page that has the menu, the toggle and the
    navbar; [ariaExpanded] is the toggle's attribute, absent until
    first set unless the markup gives it. *)
Record nav := Nav {
  isOpen : bool;
  menuActive : bool;
  ariaExpanded : option jsstring;
  bodyOverflow : jsstring;
  navbarScrolled : bool
}.

Definition openMenu (n : nav) : nav :=
  Nav true true (Some (str "true")) (str "hidden") (navbarScrolled n).

Definition closeMenu (n : nav) : nav :=
  Nav false false (Some (str "false")) (str "") (navbarScrolled n).

Definition toggleMenu (n : nav) : nav :=
  if isOpen n then closeMenu n else openMenu n.

Definition handleScroll (scrollY : Z) (n : nav) : nav :=
  Nav (isOpen n) (menuActive n) (ariaExpanded n) (bodyOverflow n)
      (if (50 <? scrollY)%Z then true else false).

(** Where a click lands. *)
Inductive place :=
| OnToggle
| OnLink (insideMenu : bool)
| InsideMenu
| Elsewhere.

Definition menuContains (p : place) : bool :=
  match p with
  | OnLink b => b
  | InsideMenu => true
  | _ => false
  end.

Definition toggleContains (p : place) : bool :=
  match p with OnToggle => true | _ => false end.

Inductive event :=
| Click (p : place)
| KeyDown (key : jsstring).

(** The listeners of init, in the order the event reaches them: the
    target's own first, the document's last. *)
Definition dispatch (e : event) (n : nav) : nav :=
  match e with
  | Click p =>
      let n :=
        match p with
        | OnToggle => toggleMenu n
        | OnLink _ => if isOpen n then closeMenu n else n
        | _ => n
        end in
      if isOpen n && negb (menuContains p) && negb (toggleContains p)
      then closeMenu n else n
  | KeyDown key =>
      if eqb key (str "Escape") && isOpen n then closeMenu n else n
  end.

(** Everything that touches the menu state. *)
Inductive action :=
| CallToggle | CallOpen | CallClose
| Dispatch (e : event).

Definition perform (a : action) (n : nav) : nav :=
  match a with
  | CallToggle => toggleMenu n
  | CallOpen => openMenu n
  | CallClose => closeMenu n
  | Dispatch e => dispatch e n
  end.

Definition performAll (l : list action) (n : nav) : nav :=
  fold_left (fun n a => perform a n) l n.

(** The direct calls among the actions. *)
Definition isCall (a : action) : Prop :=
  match a with Dispatch _ => False | _ => True end.

(** The four pieces of state agree on whether the menu is open. *)
Definition consistent (n : nav) : Prop :=
  menuActive n = isOpen n
  /\ ariaExpanded n = Some (if isOpen n then str "true" else str "false")
  /\ bodyOverflow n = (if isOpen n then str "hidden" else str "").

End Navigation.

(* ================================================================== *)
(** * The reveal and counter observers *)

Module Observers.

Definition elem := nat.

Record entry := Entry { target : elem; isIntersecting : bool }.

(** Which routine started a counter animation. *)
Inductive routine := ByAnimateCounter | ByAnimateValue.

(** The classes, observers and timers the two components work on:
    the elements bearing [revealed] and [counted], the targets of each
    IntersectionObserver, the counter animations started so far, and
    the targets of the reveal timers not yet run. *)
Record dom := Dom {
  revealed : gset elem;
  counted : gset elem;
  observedSR : gset elem;
  observedAC : gset elem;
  animations : list (routine * elem);
  pending : list elem
}.

Section Page.
(** [counterIn x] is [x.querySelector('[data-counter]')]. *)
Variable counterIn : elem -> option elem.

(** ScrollReveal.animateCounter / AnimatedCounters.animateValue, as far
    as the element's classes go; the numbers are in [Counters]. *)
Definition startAnimation (by_ : routine) (c : elem) (d : dom) : dom :=
  Dom (revealed d) ({[c]} ∪ counted d) (observedSR d) (observedAC d)
      (animations d ++ [(by_, c)]) (pending d).

(** The body of the setTimeout callback of ScrollReveal. *)
Definition revealNow (x : elem) (d : dom) : dom :=
  let d := Dom ({[x]} ∪ revealed d) (counted d) (observedSR d) (observedAC d)
               (animations d) (pending d) in
  match counterIn x with
  | Some c =>
      if decide (c ∈ counted d) then d
      else startAnimation ByAnimateCounter c d
  | None => d
  end.

(** The observer callback of ScrollReveal, one entry. *)
Definition onRevealEntry (e : entry) (d : dom) : dom :=
  if isIntersecting e then
    Dom (revealed d) (counted d) (observedSR d ∖ {[target e]}) (observedAC d)
        (animations d) (pending d ++ [target e])
  else d.

(** The observer callback of AnimatedCounters, one entry. *)
Definition onCounterEntry (e : entry) (d : dom) : dom :=
  if isIntersecting e && negb (bool_decide (target e ∈ counted d)) then
    let d := startAnimation ByAnimateValue (target e) d in
    Dom (revealed d) (counted d) (observedSR d) (observedAC d ∖ {[target e]})
        (animations d) (pending d)
  else d.

Definition callbackSR (entries : list entry) (d : dom) : dom :=
  fold_left (fun d e => onRevealEntry e d) entries d.

Definition callbackAC (entries : list entry) (d : dom) : dom :=
  fold_left (fun d e => onCounterEntry e d) entries d.

(** An observer reports only on the targets it still observes. *)
Definition deliverSR (e : entry) (d : dom) : dom :=
  if decide (target e ∈ observedSR d) then callbackSR [e] d else d.

Definition deliverAC (e : entry) (d : dom) : dom :=
  if decide (target e ∈ observedAC d) then callbackAC [e] d else d.

(** The [i]-th pending reveal timer runs (timers carry each its own
    delay, so any of them may be the next). *)
Definition runTimer (i : nat) (d : dom) : dom :=
  match nth_error (pending d) i with
  | None => d
  | Some x =>
      revealNow x (Dom (revealed d) (counted d) (observedSR d) (observedAC d)
                       (animations d)
                       (firstn i (pending d) ++ skipn (S i) (pending d)))
  end.

(** Whatever can happen to the two components. *)
Inductive step :=
| RevealCallback (entries : list entry)
| CounterCallback (entries : list entry)
| Timer (i : nat).

Definition exec (st : step) (d : dom) : dom :=
  match st with
  | RevealCallback es => callbackSR es d
  | CounterCallback es => callbackAC es d
  | Timer i => runTimer i d
  end.

Definition execAll (l : list step) (d : dom) : dom :=
  fold_left (fun d st => exec st d) l d.

(** The animations started on [c], in order. *)
Definition animationsOf (c : elem) (d : dom) : list (routine * elem) :=
  List.filter (fun a => Nat.eqb (snd a) c) (animations d).

(** What a visitor can see of the state. *)
Definition visible (d : dom) : gset elem * gset elem * list (routine * elem) :=
  (revealed d, counted d, animations d).

(** Reveal and counter of [x] are in their final state. *)
Definition settled (x : elem) (d : dom) : Prop :=
  x ∈ revealed d /\
  match counterIn x with Some c => c ∈ counted d | None => True end.

End Page.

End Observers.

(* ================================================================== *)
(** * App: construction of the components *)

Module App.

Definition elem := nat.

Inductive node := El (e : elem) | Document | Window | Body.

(** What a constructor does to the page. *)
Inductive effect :=
| AddListener (on : node) (event : jsstring)
| ClassAdd (on : node) (c : jsstring)
| ClassRemove (on : node) (c : jsstring)
| StyleSet (on : node) (prop : jsstring)
| Observe (on : node)
| Insert (what : jsstring)
| ConsoleLog.

(** A call either returns or throws (here always a TypeError, from a
    property read on [null]); either way with the effects it had. *)
Inductive outcome :=
| Returned (log : list effect)
| Thrown (log : list effect).

Definition logOf (o : outcome) : list effect :=
  match o with Returned l => l | Thrown l => l end.

Definition andThen (o : outcome) (k : outcome) : outcome :=
  match o with
  | Returned l =>
      match k with
      | Returned l' => Returned (l ++ l')
      | Thrown l' => Thrown (l ++ l')
      end
  | Thrown l => Thrown l
  end.

(** What the selectors of the script find on the page, and what it
    reads from the platform. [None] is querySelector's [null];
    [revealClass x] is [x.dataset.reveal || 'fade']. *)
Record page := Page {
  navbar : option elem;
  toggle : option elem;
  menu : option elem;
  links : list elem;
  anchors : list elem;
  form : option elem;
  formInputs : list elem;
  phoneInput : option elem;
  backToTop : option elem;
  layers : list elem;
  reveals : list elem;
  cards : list elem;
  counters : list elem;
  heroScroll : option elem;
  track : option elem;
  lazyImages : list elem;
  revealClass : elem -> jsstring;
  reducedMotion : bool;
  touch : bool;
  nativeLazy : bool;
  production : bool;
  perfTiming : bool;
  scrollY : Z
}.

Definition each (f : elem -> list effect) (l : list elem) : list effect :=
  concat (map f l).

(** Navigation.handleScroll *)
Definition handleScroll (p : page) : outcome :=
  match navbar p with
  | None => Thrown []
  | Some nb =>
      if (50 <? scrollY p)%Z
      then Returned [ClassAdd (El nb) (str "navbar--scrolled")]
      else Returned [ClassRemove (El nb) (str "navbar--scrolled")]
  end.

(** new Navigation() *)
Definition Navigation (p : page) : outcome :=
  andThen
    (Returned
       (match toggle p with
        | Some t => [AddListener (El t) (str "click")]
        | None => []
        end
        ++ each (fun l => [AddListener (El l) (str "click")]) (links p)))
    (andThen (handleScroll p)
       (Returned [AddListener Window (str "scroll");
                  AddListener Document (str "click");
                  AddListener Document (str "keydown")])).

Definition SmoothScroll (p : page) : outcome :=
  Returned (each (fun l => [AddListener (El l) (str "click")]) (anchors p)).

Definition FormHandler (p : page) : outcome :=
  match form p with
  | None => Returned []
  | Some f =>
      Returned
        ([AddListener (El f) (str "submit")]
         ++ each (fun i => [AddListener (El i) (str "blur");
                            AddListener (El i) (str "input")]) (formInputs p)
         ++ match phoneInput p with
            | Some ph => [AddListener (El ph) (str "input")]
            | None => []
            end)
  end.

Definition BackToTop (p : page) : outcome :=
  match backToTop p with
  | None => Returned []
  | Some b => Returned [AddListener Window (str "scroll");
                        AddListener (El b) (str "click")]
  end.

Definition ParallaxEffect (p : page) : outcome :=
  match layers p with
  | [] => Returned []
  | _ =>
      if reducedMotion p then Returned []
      else Returned (each (fun l => [StyleSet (El l) (str "transform")]) (layers p)
                     ++ [AddListener Window (str "scroll");
                         AddListener Window (str "resize")])
  end.

Definition ScrollReveal (p : page) : outcome :=
  match reveals p with
  | [] => Returned []
  | _ =>
      if reducedMotion p
      then Returned (each (fun x => [ClassAdd (El x) (str "revealed")]) (reveals p))
      else Returned (each (fun x => [ClassAdd (El x) (revealClass p x); Observe (El x)])
                          (reveals p))
  end.

Definition CardTilt (p : page) : outcome :=
  match cards p with
  | [] => Returned []
  | _ =>
      if touch p then Returned []
      else Returned (each (fun c => [AddListener (El c) (str "mousemove");
                                     AddListener (El c) (str "mouseleave")])
                          (cards p))
  end.

Definition AnimatedCounters (p : page) : outcome :=
  match counters p with
  | [] => Returned []
  | _ => Returned (each (fun c => [Observe (El c)]) (counters p))
  end.

Definition HeroScroll (p : page) : outcome :=
  match heroScroll p with
  | None => Returned []
  | Some h => Returned [AddListener (El h) (str "click")]
  end.

Definition PartnerSlider (p : page) : outcome :=
  match track p with
  | None => Returned []
  | Some t =>
      if reducedMotion p then Returned [StyleSet (El t) (str "animation")]
      else Returned [AddListener (El t) (str "mouseenter");
                     AddListener (El t) (str "mouseleave")]
  end.

Definition LazyImages (p : page) : outcome :=
  if nativeLazy p then Returned []
  else Returned (each (fun i => [Observe (El i)]) (lazyImages p)).

Definition AccessibilityHelpers (p : page) : outcome :=
  Returned [Insert (str "skip-link");
            AddListener Document (str "mousedown");
            AddListener Document (str "keydown");
            AddListener Document (str "keydown");
            Insert (str "sr-only")].

Definition PerformanceMonitor (p : page) : outcome :=
  if perfTiming p then Returned [AddListener Window (str "load")]
  else Returned [].

(** The constructors, in the order initComponents calls them. *)
Inductive component :=
| CNavigation | CSmoothScroll | CFormHandler | CBackToTop
| CParallaxEffect | CScrollReveal | CCardTilt | CAnimatedCounters
| CHeroScroll | CPartnerSlider | CLazyImages | CAccessibilityHelpers
| CPerformanceMonitor.

Definition construct (c : component) (p : page) : outcome :=
  match c with
  | CNavigation => Navigation p
  | CSmoothScroll => SmoothScroll p
  | CFormHandler => FormHandler p
  | CBackToTop => BackToTop p
  | CParallaxEffect => ParallaxEffect p
  | CScrollReveal => ScrollReveal p
  | CCardTilt => CardTilt p
  | CAnimatedCounters => AnimatedCounters p
  | CHeroScroll => HeroScroll p
  | CPartnerSlider => PartnerSlider p
  | CLazyImages => LazyImages p
  | CAccessibilityHelpers => AccessibilityHelpers p
  | CPerformanceMonitor => PerformanceMonitor p
  end.

(** Construct in order; a throw ends the sequence. The second component
    of the result lists the components constructed. *)
Fixpoint constructAll (cs : list component) (p : page)
    : outcome * list component :=
  match cs with
  | [] => (Returned [], [])
  | c :: rest =>
      match construct c p with
      | Thrown l => (Thrown l, [])
      | Returned l =>
          let (o, done) := constructAll rest p in
          (andThen (Returned l) o, c :: done)
      end
  end.

(** App.initComponents *)
Definition initComponents (p : page) : outcome * list component :=
  let core := [CNavigation; CSmoothScroll; CFormHandler; CBackToTop;
               CParallaxEffect; CScrollReveal; CCardTilt; CAnimatedCounters;
               CHeroScroll; CPartnerSlider; CLazyImages;
               CAccessibilityHelpers] in
  let cs := if production p then core ++ [CPerformanceMonitor] else core in
  let (o, done) := constructAll cs p in
  (andThen o (Returned [ConsoleLog; ClassAdd Body (str "loaded")]), done).

End App.

(* ================================================================== *)
(** * FormHandler: the listeners of init *)

Module FormEvents.

(** The blur listener of a [.form__input]: validateField, its verdict
    dropped. *)
Definition onBlur (f : field) : field := snd (validateField f).

(** The input listener of a [.form__input]. *)
Definition onInput (f : field) : field :=
  if groupError f then snd (validateField f) else f.

(** The input listener of the phone input: maskPhone(e), on the field
    that is [e.target]. *)
Definition onMask (f : field) : field := setValue (maskPhone (value f)) f.

(** An input event on the phone input, the edit having left [raw] in
    it. The listeners run in the order init added them: that of the
    [.form__input] loop, if the phone input is one of those
    ([isFormInput]), before the mask. *)
Definition onPhoneInput (isFormInput : bool) (raw : jsstring) (f : field) : field :=
  let f := setValue raw f in
  let f := if isFormInput then onInput f else f in
  onMask f.

End FormEvents.

(* ================================================================== *)
(** * The utility functions *)

Module Utilities.

(** isInViewport(element, offset), from the rectangle's [top] and
    [bottom] and from [window.innerHeight]. The viewport height and the
    offset are whole numbers of pixels, on which the subtraction is
    exact; the edges of the rectangle are any numbers. *)
Definition isInViewport (top bottom : Q) (innerHeight offset : Z) : bool :=
  Qle_bool top (inject_Z (innerHeight - offset))
  && Qle_bool (inject_Z offset) bottom.

(** ** throttle

    Time is the clock of the timers, in milliseconds. A timer runs when
    the clock reaches its due time, before anything else that happens
    at that time. *)
Section Throttle.
Variable A : Type.
Variable limit : N.

(** A function made by throttle(func, limit): the closure's
    [inThrottle], the due times of the reset timers pending, and the
    calls of [func] made so far, each with its time and arguments. *)
Record throttled := Throttled {
  inThrottle : bool;
  resets : list N;
  calls : list (N * A)
}.

(** As throttle returns it: [inThrottle] is undefined, which is falsy. *)
Definition throttle : throttled := Throttled false [] [].

(** The clock reaches [t]: the reset timers due run. *)
Definition elapse (t : N) (s : throttled) : throttled :=
  match List.filter (fun due => (due <=? t)%N) (resets s) with
  | [] => s
  | _ :: _ =>
      Throttled false (List.filter (fun due => negb (due <=? t)%N) (resets s))
                (calls s)
  end.

(** The function is called at time [t]. *)
Definition invoke (t : N) (args : A) (s : throttled) : throttled :=
  let s := elapse t s in
  if inThrottle s then s
  else Throttled true (resets s ++ [(t + limit)%N]) (calls s ++ [(t, args)]).

Definition invokeAll (events : list (N * A)) (s : throttled) : throttled :=
  fold_left (fun s e => invoke (fst e) (snd e) s) events s.
End Throttle.

(** ** debounce *)
Section Debounce.
Variable A : Type.
Variable wait : N.

(** A function made by debounce(func, wait): the handle held in
    [timeout], the handle the next setTimeout returns, the timers
    pending (handle, due time, the arguments the closure [later] holds),
    and the calls of [func] made so far. *)
Record debounced := Debounced {
  timeout : option nat;
  nextHandle : nat;
  waiting : list (nat * (N * A));
  made : list (N * A)
}.

Definition debounce : debounced := Debounced None 1 [] [].

(** clearTimeout(timeout) *)
Definition clearTimeout (h : option nat) (l : list (nat * (N * A)))
    : list (nat * (N * A)) :=
  match h with
  | Some h => List.filter (fun tm => negb (Nat.eqb (fst tm) h)) l
  | None => l
  end.

(** The closure [later], run by its timer at [due]. *)
Definition later (due : N) (args : A) (s : debounced) : debounced :=
  Debounced (timeout s) (nextHandle s) (clearTimeout (timeout s) (waiting s))
            (made s ++ [(due, args)]).

(** The pending timer that runs next: the earliest due, and among
    timers due together the one set first. *)
Fixpoint nextTimer (l : list (nat * (N * A)))
    : option ((nat * (N * A)) * list (nat * (N * A))) :=
  match l with
  | [] => None
  | tm :: r =>
      match nextTimer r with
      | Some (m, r') =>
          if (fst (snd m) <? fst (snd tm))%N then Some (m, tm :: r')
          else Some (tm, r)
      | None => Some (tm, [])
      end
  end.

(** Run the timers due by [t], one after the other; no timer sets
    another, so there are at most [fuel] of them when [fuel] is the
    number of timers pending. *)
Fixpoint settle (fuel : nat) (t : N) (s : debounced) : debounced :=
  match fuel with
  | O => s
  | S fuel' =>
      match nextTimer (waiting s) with
      | Some ((_, (due, args)), rest) =>
          if (due <=? t)%N
          then settle fuel' t
                 (later due args
                    (Debounced (timeout s) (nextHandle s) rest (made s)))
          else s
      | None => s
      end
  end.

(** The clock reaches [t]. *)
Definition elapseD (t : N) (s : debounced) : debounced :=
  settle (length (waiting s)) t s.

(** executedFunction(...args), called at time [t]. *)
Definition invokeD (t : N) (args : A) (s : debounced) : debounced :=
  let s := elapseD t s in
  let pending := clearTimeout (timeout s) (waiting s) in
  Debounced (Some (nextHandle s)) (S (nextHandle s))
            (pending ++ [(nextHandle s, ((t + wait)%N, args))])
            (made s).

Definition invokeAllD (events : list (N * A)) (s : debounced) : debounced :=
  fold_left (fun s e => invokeD (fst e) (snd e) s) events s.
End Debounce.

(** ** window.announce *)

(** The live region of setupAriaLive: its [textContent] and the due
    times of the timers that will empty it. *)
Record liveRegion := Live {
  textContent : jsstring;
  clears : list N
}.

(** The clock reaches [t]: the timers due run, each emptying the
    region. *)
Definition elapseL (t : N) (s : liveRegion) : liveRegion :=
  match List.filter (fun due => (due <=? t)%N) (clears s) with
  | [] => s
  | _ :: _ => Live [] (List.filter (fun due => negb (due <=? t)%N) (clears s))
  end.

(** window.announce(message), called at time [t]. *)
Definition announce (t : N) (message : jsstring) (s : liveRegion) : liveRegion :=
  let s := elapseL t s in
  Live message (clears s ++ [(t + 1000)%N]).

Definition announceAll (l : list (N * jsstring)) (s : liveRegion) : liveRegion :=
  fold_left (fun s a => announce (fst a) (snd a) s) l s.

End Utilities.

(* ================================================================== *)
(** * Navigation: the scroll listener *)

Module NavScroll.


End NavScroll.

(* ================================================================== *)
(** * What the specification speaks of *)

Module Spec.

(** The language of a sequence of pieces, said without a matcher: the
    string splits into one block per piece, each block within its
    piece's class and bounds. *)
Fixpoint matches (ps : list piece) (dol : bool) (s : jsstring) : Prop :=
  match ps with
  | [] => if dol then s = [] else True
  | p :: ps' =>
      exists m rest,
        s = m ++ rest /\ forallb (cls p) m = true
        /\ lo p <= length m /\ within (hi p) (length m)
        /\ matches ps' dol rest
  end.

Definition allDigits (s : jsstring) : Prop := forallb isDigit s = true.

(** The digits of a raw input, in order. *)
Definition digitsOf (raw : jsstring) : jsstring := List.filter isDigit raw.

(** The shape [(DD) DDDDD-DDDD]. *)
Definition fullShape (s : jsstring) : Prop :=
  exists a b c,
    s = str "(" ++ a ++ str ") " ++ b ++ str "-" ++ c
    /\ allDigits a /\ length a = 2
    /\ allDigits b /\ length b = 5
    /\ allDigits c /\ length c = 4.

(** A strict prefix of that shape: something is still to come. *)
Definition strictPrefixOfShape (s : jsstring) : Prop :=
  exists t, t <> [] /\ fullShape (s ++ t).

(** A character an address part may hold: no whitespace, no [@]. *)
Definition plain (c : char) : Prop := isSpace c = false /\ c <> ch "@".

(** [local@domain.tld] *)
Definition simpleEmail (v : jsstring) : Prop :=
  exists loc dom tld,
    v = loc ++ str "@" ++ dom ++ str "." ++ tld
    /\ loc <> [] /\ dom <> [] /\ tld <> []
    /\ Forall plain loc /\ Forall plain dom /\ Forall plain tld.

(** A field passes validation. *)
Definition passes (f : field) : Prop := fst (validateField f) = true.




(** The same of a run in binary64, as a check that computes: the
    animation ended; the values assigned, and the values shown, are
    each at most the next and at most [T]; and [T] is the last. *)
Definition reachesTargetF (T : float) (run : list (list float) * bool) : bool :=
  snd run
  && ascending (assigned run)
  && forallb (fun d => (d <=? T)%float) (assigned run)
  && (last (assigned run) nan =? T)%float
  && ascending (displayed run)
  && (last (displayed run) nan =? T)%float.



End Spec.
Import Spec.

(* ================================================================== *)
(** * What the further properties speak of *)

Module Props.

(** Calls in the order of their times. *)
Definition inOrder {A : Type} (events : list (N * A)) : Prop :=
  StronglySorted (fun a b => (fst a <= fst b)%N) events.

(** Calls at least [gap] apart, each from all before it. *)
Definition apart {A : Type} (gap : N) (events : list (N * A)) : Prop :=
  StronglySorted (fun a b => (fst a + gap <= fst b)%N) events.

(** Calls each less than [gap] after the one before. *)
Fixpoint burst {A : Type} (gap : N) (events : list (N * A)) : Prop :=
  match events with
  | a :: (b :: _) as rest => (fst b < fst a + gap)%N /\ burst gap rest
  | _ => True
  end.

(** The calls no other call follows within [wait], each moved to
    [wait] after its time. *)
Fixpoint unfollowed {A : Type} (wait : N) (events : list (N * A)) : list (N * A) :=
  match events with
  | [] => []
  | a :: rest =>
      match rest with
      | b :: _ =>
          if (fst a + wait <=? fst b)%N
          then ((fst a + wait)%N, snd a) :: unfollowed wait rest
          else unfollowed wait rest
      | [] => [((fst a + wait)%N, snd a)]
      end
  end.

(** What holds of a throttled function between calls, [t] being the
    time reached: the calls made are [limit] apart; and either the
    function is ready, no timer is pending and every call lies [limit]
    or more back, or it is held by the timer of its latest call. *)
Definition throttleInv {A : Type} (limit t : N) (s : Utilities.throttled A) : Prop :=
  apart limit (Utilities.calls s)
  /\ ((Utilities.inThrottle s = false /\ Utilities.resets s = []
       /\ Forall (fun c => (fst c + limit <= t)%N) (Utilities.calls s))
      \/ (Utilities.inThrottle s = true
          /\ exists e a,
               Utilities.resets s = [(e + limit)%N] /\ (e <= t)%N
               /\ In (e, a) (Utilities.calls s)
               /\ Forall (fun c => (fst c <= e)%N) (Utilities.calls s))).

(** A call of a throttled function is answered: it was run, or a call
    run less than [limit] before it holds the function. *)
Definition answered {A : Type} (limit : N) (ran : list (N * A)) (ev : N * A) : Prop :=
  In ev ran \/ exists c, In c ran /\ (fst c <= fst ev < fst c + limit)%N.

(** A debounced function with the call [(t, a)] waiting for its timer. *)
Definition waitingFor {A : Type} (wait : N) (ev : N * A) (s : Utilities.debounced A)
    : Prop :=
  exists h, Utilities.timeout s = Some h
            /\ Utilities.waiting s = [(h, ((fst ev + wait)%N, snd ev))].

(** What maskPhone writes back, said from the first eleven digits [v]
    of the raw value. *)
Definition layoutOf (v : jsstring) : jsstring :=
  if length v =? 11
  then str "(" ++ firstn 2 v ++ str ") " ++ firstn 5 (skipn 2 v)
       ++ str "-" ++ skipn 7 v
  else if 6 <? length v then v
  else if 2 <? length v then str "(" ++ firstn 2 v ++ str ") " ++ skipn 2 v
  else if 0 <? length v then str "(" ++ v
  else [].

(** The characters of a masked value: digits and the four of the shape. *)
Definition maskChar (c : char) : Prop := isDigit c = true \/ In c (str "() -").

(** An effect that keeps the script running later on: a listener or an
    observer. *)
Definition listens (e : App.effect) : bool :=
  match e with
  | App.AddListener _ _ | App.Observe _ => true
  | _ => false
  end.

(** Every counter has at most one animation so far, and bears
    [counted] if it has one. *)
Definition animatedOnce (d : Observers.dom) : Prop :=
  forall c,
    length (Observers.animationsOf c d) <= 1
    /\ (Observers.animationsOf c d <> [] -> c ∈ Observers.counted d).

(** A run in binary64 that is over with its first call and leaves [T]
    shown. *)
Definition atOnce (T : float) (run : list (list float) * bool) : bool :=
  snd run
  && match displayed run with
     | [x] => (x =? T)%float
     | _ => false
     end.

(** Both routines, run in binary64 on the integer [- z], are over with
    their first call. *)
Definition checkAtOnce (z : Z) : bool :=
  let T := (- numberOf z)%float in
  atOnce T (animateCounterF T 1) && atOnce T (animateValueF T 1).

(** [checkAtOnce] on [count] integers from [z] on. *)
Fixpoint checkAtOnceFrom (z : Z) (count : nat) : bool :=
  match count with
  | O => true
  | S n => checkAtOnce z && checkAtOnceFrom (z + 1)%Z n
  end.

End Props.
Import Props.


(* ================================================================== *)
(** * Facts about the matcher *)

Unset Implicit Arguments.

Lemma eqb_eq a b : eqb a b = true <-> a = b.
Proof. unfold eqb. destruct (list_eq_dec N.eq_dec a b); split; congruence. Qed.

Lemma eqb_refl a : eqb a a = true.
Proof. now apply eqb_eq. Qed.

Lemma within_less h n : more h = true -> within (less h) n -> within h (S n).
Proof. destruct h as [[|k]|]; simpl; intros; try discriminate; lia. Qed.

Lemma within_more h n : within h (S n) -> more h = true /\ within (less h) n.
Proof. destruct h as [[|k]|]; simpl; intros; split; auto; lia. Qed.

Section RepFacts.
Variable R : Type.
Variable c : char -> bool.
Variable k : jsstring -> jsstring -> option R.

(** Whatever [rep] returns comes from a split of the input. *)
Lemma rep_sound s : forall l h acc r,
  rep c l h k acc s = Some r ->
  exists m rest,
    s = m ++ rest /\ forallb c m = true /\ l <= length m
    /\ within h (length m) /\ k (rev acc ++ m) rest = Some r.
Proof using Type.
  assert (Hstop : forall l h acc t r,
    match l with O => k (rev acc) t | S _ => None end = Some r ->
    exists m rest, t = m ++ rest /\ forallb c m = true /\ l <= length m
      /\ within h (length m) /\ k (rev acc ++ m) rest = Some r).
  { intros l h acc t r H. destruct l; [|discriminate].
    exists [], t. rewrite app_nil_r. repeat split; auto.
    destruct h; simpl; auto; lia. }
  induction s as [|x s' IH]; intros l h acc r H; simpl in H.
  - now apply Hstop.
  - destruct (c x && more h) eqn:E; [|now apply Hstop].
    apply andb_true_iff in E as [Ec Em].
    destruct (rep c (Init.Nat.pred l) (less h) k (x :: acc) s') as [r'|] eqn:E'.
    + inversion H; subst r'. apply IH in E' as (m & rest & -> & Hm & Hl & Hh & Hk).
      exists (x :: m), rest. simpl. rewrite Ec, Hm.
      repeat split; auto; [lia|now apply within_less|].
      simpl in Hk. now rewrite <- app_assoc in Hk.
    + now apply Hstop.
Qed.

(** A split the rest of the pattern accepts makes [rep] succeed. *)
Lemma rep_complete m : forall rest l h acc,
  forallb c m = true -> l <= length m -> within h (length m) ->
  k (rev acc ++ m) rest <> None ->
  rep c l h k acc (m ++ rest) <> None.
Proof using Type.
  induction m as [|x m' IH]; intros rest l h acc Hm Hl Hh Hk.
  - simpl in Hl. assert (l = 0) by lia. subst l.
    rewrite app_nil_r in Hk.
    destruct rest as [|y rest']; simpl; auto.
    destruct (c y && more h); auto.
    destruct (rep c 0 (less h) k (y :: acc) rest'); [congruence|auto].
  - simpl in Hm. apply andb_true_iff in Hm as [Hx Hm]. simpl in Hl, Hh.
    apply within_more in Hh as [Hmo Hh]. simpl. rewrite Hx, Hmo. simpl.
    specialize (IH rest (Init.Nat.pred l) (less h) (x :: acc) Hm).
    destruct (rep c (Init.Nat.pred l) (less h) k (x :: acc) (m' ++ rest)).
    + congruence.
    + exfalso. apply IH; auto; [lia|]. simpl. now rewrite <- app_assoc.
Qed.

(** An exact count [{n}] takes its [n] units or fails. *)
Lemma rep_exact m : forall rest n acc,
  forallb c m = true -> length m = n ->
  rep c n (Some n) k acc (m ++ rest) = k (rev acc ++ m) rest.
Proof using Type.
  induction m as [|x m' IH]; intros rest n acc Hm Hn; simpl in Hn; subst n.
  - rewrite app_nil_r. destruct rest as [|y rest']; simpl; auto.
    now rewrite andb_false_r.
  - simpl in Hm. apply andb_true_iff in Hm as [Hx Hm].
    simpl. rewrite Hx. simpl. rewrite IH by auto.
    simpl. rewrite <- app_assoc. simpl. now destruct (k (rev acc ++ x :: m') rest).
Qed.

(** A greedy repetition whose class and bound cover all that is left
    takes all of it, when the rest of the pattern agrees. *)
Lemma rep_all m : forall l h acc r,
  forallb c m = true -> l <= length m -> within h (length m) ->
  k (rev acc ++ m) [] = Some r ->
  rep c l h k acc m = Some r.
Proof using Type.
  induction m as [|x m' IH]; intros l h acc r Hm Hl Hh Hk.
  - simpl in Hl. assert (l = 0) by lia. subst l.
    rewrite app_nil_r in Hk. now simpl.
  - simpl in Hm. apply andb_true_iff in Hm as [Hx Hm]. simpl in Hl, Hh.
    apply within_more in Hh as [Hmo Hh]. simpl. rewrite Hx, Hmo. simpl.
    rewrite (IH (Init.Nat.pred l) (less h) (x :: acc) r); auto; [lia|].
    simpl. now rewrite <- app_assoc.
Qed.
End RepFacts.

(** The matcher decides the language of the pieces. *)
Lemma exec_matches ps dol : forall caps s,
  exec ps dol caps s <> None <-> matches ps dol s.
Proof.
  induction ps as [|p ps' IH]; intros caps s; simpl.
  - destruct dol, s; simpl; split; intros; congruence || auto.
  - split.
    + intros H.
      destruct (rep _ _ _ _ _ _) as [r|] eqn:E in H; [|congruence].
      apply rep_sound in E as (m & rest & -> & Hm & Hl & Hh & Hk).
      exists m, rest. repeat split; auto. apply (IH (if cap p then m :: caps else caps)).
      simpl in Hk. congruence.
    + intros (m & rest & -> & Hm & Hl & Hh & Hr).
      apply rep_complete; auto. simpl. now apply IH.
Qed.

(** A match needs at least the lower bounds of all its pieces. *)
Lemma exec_min_length ps dol : forall caps s r,
  exec ps dol caps s = Some r -> list_sum (map lo ps) <= length s.
Proof.
  induction ps as [|p ps' IH]; intros caps s r H; simpl in *; [lia|].
  apply rep_sound in H as (m & rest & -> & _ & Hl & _ & Hk).
  apply IH in Hk. rewrite length_app. lia.
Qed.

Lemma search_caret r pre s :
  caret r = true ->
  search r pre s =
  match exec (pieces r) (dollar r) [] s with
  | Some (caps, rest) => Some (rev pre, caps, rest)
  | None => None
  end.
Proof.
  intros Hc. destruct s; simpl; destruct (exec _ _ _ _) as [[? ?]|]; auto;
    now rewrite Hc.
Qed.

Lemma test_caret r s :
  caret r = true ->
  (test r s = true <-> matches (pieces r) (dollar r) s).
Proof.
  intros Hc. unfold test. rewrite search_caret by assumption.
  rewrite <- (exec_matches (pieces r) (dollar r) [] s).
  destruct (exec _ _ _ _) as [[? ?]|]; split; congruence.
Qed.

Lemma replace_caret r tpl s :
  caret r = true ->
  replace r tpl s =
  match exec (pieces r) (dollar r) [] s with
  | Some (caps, rest) => expand tpl caps ++ rest
  | None => s
  end.
Proof.
  intros Hc. unfold replace. rewrite search_caret by assumption.
  now destruct (exec _ _ _ _) as [[? ?]|].
Qed.

(** Deleting every non-digit leaves the digits. *)
Lemma replaceAll1_nonDigit raw : replaceAll1 isNonDigit [] raw = digitsOf raw.
Proof.
  induction raw as [|x s IH]; [reflexivity|].
  assert (Hx : exec [Piece isNonDigit 1 (Some 1) false] false [] (x :: s)
               = if isDigit x then None else Some ([], s)).
  { cbn [exec cls lo hi cap]. destruct (isDigit x) eqn:E.
    - cbn. unfold isNonDigit. now rewrite E.
    - change (x :: s) with ([x] ++ s).
      rewrite rep_exact; [reflexivity | cbn; unfold isNonDigit; now rewrite E
                         | reflexivity]. }
  unfold digitsOf in *. cbn [replaceAll1 List.filter]. rewrite Hx.
  destruct (isDigit x); cbn; now rewrite IH.
Qed.

Lemma allDigits_digitsOf raw : allDigits (digitsOf raw).
Proof.
  unfold allDigits, digitsOf. apply forallb_forall. intros x Hx.
  now apply filter_In in Hx.
Qed.

Lemma allDigits_firstn n s : allDigits s -> allDigits (firstn n s).
Proof.
  unfold allDigits. rewrite !forallb_forall. intros H x Hx.
  apply H. rewrite <- (firstn_skipn n s). apply in_or_app. now left.
Qed.

Lemma allDigits_skipn n s : allDigits s -> allDigits (skipn n s).
Proof.
  unfold allDigits. rewrite !forallb_forall. intros H x Hx.
  apply H. rewrite <- (firstn_skipn n s). apply in_or_app. now right.
Qed.

(** The mask, by the number of digits typed. *)
Lemma maskPhone_cases raw :
  let d := digitsOf raw in
  let v := if 11 <? length d then slice0 11 d else d in
  maskPhone raw =
    if 6 <? length v then replace reFull tplFull v
    else if 2 <? length v then replace rePartial tplPartial v
    else if 0 <? length v then replace reOpen tplOpen v
    else v.
Proof. unfold maskPhone. now rewrite replaceAll1_nonDigit. Qed.

(** Eleven digits are formatted in full. *)
Lemma replace_full v :
  allDigits v -> length v = 11 ->
  replace reFull tplFull v =
  str "(" ++ firstn 2 v ++ str ") " ++ firstn 5 (skipn 2 v) ++ str "-" ++ skipn 7 v.
Proof.
  intros Hd Hl. rewrite replace_caret by reflexivity.
  set (a := firstn 2 v). set (b := firstn 5 (skipn 2 v)). set (c := skipn 7 v).
  assert (Hv : v = a ++ b ++ c ++ []).
  { subst a b c. rewrite app_nil_r.
    rewrite <- (firstn_skipn 2 v) at 1. f_equal.
    rewrite <- (firstn_skipn 5 (skipn 2 v)) at 1. f_equal.
    now rewrite skipn_skipn. }
  assert (Ha : length a = 2) by (subst a; rewrite length_firstn; lia).
  assert (Hb : length b = 5) by (subst b; rewrite length_firstn, length_skipn; lia).
  assert (Hc : length c = 4) by (subst c; rewrite length_skipn; lia).
  assert (Da : forallb isDigit a = true) by now apply allDigits_firstn.
  assert (Db : forallb isDigit b = true)
    by now apply allDigits_firstn, allDigits_skipn.
  assert (Dc : forallb isDigit c = true) by now apply allDigits_skipn.
  rewrite Hv at 1. cbn [pieces dollar reFull exec digits cls lo hi cap].
  rewrite rep_exact by assumption. cbn [rev app].
  rewrite rep_exact by assumption. cbn [rev app].
  rewrite rep_exact by assumption. cbn.
  now rewrite !app_nil_r.
Qed.

(** Fewer than eleven digits: the full pattern finds no match and
    [replace] hands the string back as it came. *)
Lemma replace_full_short v : length v < 11 -> replace reFull tplFull v = v.
Proof.
  intros Hl. rewrite replace_caret by reflexivity.
  destruct (exec _ _ _ _) as [[caps rest]|] eqn:E; [|reflexivity].
  apply exec_min_length in E. cbn in E. lia.
Qed.

(** Three to seven digits under the partial pattern. *)
Lemma replace_partial v :
  allDigits v -> 2 <= length v <= 7 ->
  replace rePartial tplPartial v =
  str "(" ++ firstn 2 v ++ str ") " ++ skipn 2 v.
Proof.
  intros Hd Hl. rewrite replace_caret by reflexivity.
  set (a := firstn 2 v). set (b := skipn 2 v).
  assert (Hv : v = a ++ b) by (subst a b; now rewrite firstn_skipn).
  assert (Ha : length a = 2) by (subst a; rewrite length_firstn; lia).
  assert (Hb : length b <= 5) by (subst b; rewrite length_skipn; lia).
  assert (Da : forallb isDigit a = true) by now apply allDigits_firstn.
  assert (Db : forallb isDigit b = true) by now apply allDigits_skipn.
  rewrite Hv at 1. cbn [pieces dollar rePartial exec digits cls lo hi cap].
  rewrite rep_exact by assumption. cbn [rev app].
  erewrite rep_all; [ | exact Db | lia | exact Hb | reflexivity ].
  cbn. now rewrite !app_nil_r.
Qed.

(** Any run of digits under the open pattern. *)
Lemma replace_open v : allDigits v -> replace reOpen tplOpen v = str "(" ++ v.
Proof.
  intros Hd. rewrite replace_caret by reflexivity.
  cbn [pieces dollar reOpen exec cls lo hi cap].
  erewrite rep_all; [ | exact Hd | lia | exact I | reflexivity ].
  cbn. now rewrite !app_nil_r.
Qed.

(** The validator's phone pattern accepts the full shape. *)
Lemma fullShape_phoneRegex s : fullShape s -> test phoneRegex s = true.
Proof.
  intros (a & b & c & -> & Da & La & Db & Lb & Dc & Lc).
  apply test_caret; [reflexivity|].
  cbn [pieces dollar phoneRegex matches lit digits cls lo hi cap within].
  exists (str "("), (a ++ str ") " ++ b ++ str "-" ++ c).
  repeat split; [cbn; lia..|].
  exists a, (str ") " ++ b ++ str "-" ++ c). repeat split; [assumption|lia..|].
  exists (str ")"), (str " " ++ b ++ str "-" ++ c). repeat split; [cbn; lia..|].
  exists (str " "), (b ++ str "-" ++ c). repeat split; [cbn; lia..|].
  exists b, (str "-" ++ c). repeat split; [assumption|lia..|].
  exists (str "-"), c. repeat split; [cbn; lia..|].
  exists c, []. rewrite app_nil_r. repeat split; [assumption|lia..].
Qed.

(** Nothing that starts with a digit is a prefix of the shape. *)
Lemma digits_not_prefix d :
  allDigits d -> d <> [] -> ~ strictPrefixOfShape d.
Proof.
  intros Hd Hne (t & _ & a & b & c & E & _).
  destruct d as [|x d']; [congruence|].
  cbn in E. inversion E; subst x. cbn in Hd. discriminate.
Qed.

Lemma value_of_mask raw :
  let d := digitsOf raw in
  let v := if 11 <? length d then slice0 11 d else d in
  allDigits v /\ length v = Nat.min 11 (length d).
Proof.
  cbv zeta. destruct (11 <? length (digitsOf raw)) eqn:E.
  - apply Nat.ltb_lt in E. split.
    + apply allDigits_firstn, allDigits_digitsOf.
    + unfold slice0. rewrite length_firstn. lia.
  - apply Nat.ltb_ge in E. split; [apply allDigits_digitsOf | lia].
Qed.

(** C2. A raw input holding eleven digits or more is masked to its first
    eleven digits laid out as [(DD) DDDDD-DDDD], the shape the phone
    validator accepts; the input "11987654321" yields "(11) 98765-4321". *)
Theorem maskPhone_eleven_or_more raw :
  11 <= length (digitsOf raw) ->
  let d := firstn 11 (digitsOf raw) in
  maskPhone raw
    = str "(" ++ firstn 2 d ++ str ") " ++ firstn 5 (skipn 2 d) ++ str "-" ++ skipn 7 d
  /\ fullShape (maskPhone raw)
  /\ test phoneRegex (maskPhone raw) = true.
Proof.
  intros Hl d.
  assert (Hv : (if 11 <? length (digitsOf raw) then slice0 11 (digitsOf raw)
                else digitsOf raw) = d).
  { destruct (11 <? length (digitsOf raw)) eqn:E; [reflexivity|].
    apply Nat.ltb_ge in E. subst d. rewrite firstn_all2; [reflexivity | lia]. }
  assert (Dd : allDigits d) by apply allDigits_firstn, allDigits_digitsOf.
  assert (Ld : length d = 11) by (subst d; rewrite length_firstn; lia).
  assert (E : maskPhone raw
              = str "(" ++ firstn 2 d ++ str ") " ++ firstn 5 (skipn 2 d)
                ++ str "-" ++ skipn 7 d).
  { rewrite maskPhone_cases. cbv zeta. rewrite Hv, Ld. cbn [Nat.ltb Nat.leb].
    now apply replace_full. }
  assert (F : fullShape (maskPhone raw)).
  { rewrite E. exists (firstn 2 d), (firstn 5 (skipn 2 d)), (skipn 7 d).
    repeat split.
    - now apply allDigits_firstn.
    - rewrite length_firstn. lia.
    - now apply allDigits_firstn, allDigits_skipn.
    - rewrite length_firstn, length_skipn. lia.
    - now apply allDigits_skipn.
    - rewrite length_skipn. lia. }
  repeat split; [exact E | exact F | now apply fullShape_phoneRegex].
Qed.

Lemma maskPhone_eleven_or_more_witness :
  maskPhone (str "11987654321") = str "(11) 98765-4321".
Proof.
  destruct (maskPhone_eleven_or_more (str "11987654321")) as [E _].
  - vm_compute. apply le_n.
  - rewrite E. reflexivity.
Defined.

(** C1, where it fails. With seven to ten digits typed the mask leaves
    the bare digits: the full pattern wants eleven digits, finds no
    match, and nothing is replaced. The value shown is then no prefix
    of [(DD) DDDDD-DDDD]. *)
Theorem maskPhone_seven_to_ten raw :
  7 <= length (digitsOf raw) <= 10 ->
  maskPhone raw = digitsOf raw /\ ~ strictPrefixOfShape (maskPhone raw).
Proof.
  intros Hl.
  assert (E : maskPhone raw = digitsOf raw).
  { rewrite maskPhone_cases. cbv zeta.
    replace (11 <? length (digitsOf raw)) with false
      by (symmetry; apply Nat.ltb_ge; lia).
    replace (6 <? length (digitsOf raw)) with true
      by (symmetry; apply Nat.ltb_lt; lia).
    apply replace_full_short. lia. }
  split; [exact E|]. rewrite E. apply digits_not_prefix.
  - apply allDigits_digitsOf.
  - intros H. rewrite H in Hl. cbn in Hl. lia.
Qed.

Lemma maskPhone_seven_to_ten_witness :
  maskPhone (str "1198765") = str "1198765"
  /\ ~ strictPrefixOfShape (maskPhone (str "1198765")).
Proof.
  apply (maskPhone_seven_to_ten (str "1198765")).
  vm_compute. split; [apply le_n | repeat constructor].
Defined.

Lemma allDigits_app a b : allDigits a -> allDigits b -> allDigits (a ++ b).
Proof. unfold allDigits. rewrite forallb_app. now intros -> ->. Qed.

Lemma allDigits_zeros n : allDigits (repeat (ch "0") n).
Proof. induction n; [reflexivity | exact IHn]. Qed.

(** With one to six digits typed the mask shows [(D], [(DD] or
    [(DD) D] to [(DD) DDDD], each a strict prefix of the full shape. *)
Lemma maskPhone_one_to_six raw :
  1 <= length (digitsOf raw) <= 6 ->
  let d := digitsOf raw in
  maskPhone raw = (if 2 <? length d
                   then str "(" ++ firstn 2 d ++ str ") " ++ skipn 2 d
                   else str "(" ++ d)
  /\ strictPrefixOfShape (maskPhone raw).
Proof.
  intros Hl d. subst d. pose proof (allDigits_digitsOf raw) as Hd.
  set (d := digitsOf raw) in *.
  assert (E : maskPhone raw = (if 2 <? length d
                   then str "(" ++ firstn 2 d ++ str ") " ++ skipn 2 d
                   else str "(" ++ d)).
  { rewrite maskPhone_cases. cbv zeta. fold d.
    replace (11 <? length d) with false by (symmetry; apply Nat.ltb_ge; lia).
    replace (6 <? length d) with false by (symmetry; apply Nat.ltb_ge; lia).
    destruct (2 <? length d) eqn:E2.
    - apply replace_partial; [assumption | apply Nat.ltb_lt in E2; lia].
    - replace (0 <? length d) with true by (symmetry; apply Nat.ltb_lt; lia).
      now apply replace_open. }
  split; [exact E|]. rewrite E. destruct (2 <? length d) eqn:E2.
  - apply Nat.ltb_lt in E2.
    exists (repeat (ch "0") (7 - length d) ++ str "-0000"). split.
    { intros H. apply (f_equal (@length _)) in H.
      rewrite length_app in H. cbn in H. lia. }
    exists (firstn 2 d), (skipn 2 d ++ repeat (ch "0") (7 - length d)), (str "0000").
    repeat split.
    + now rewrite <- !app_assoc.
    + now apply allDigits_firstn.
    + rewrite length_firstn. lia.
    + apply allDigits_app; [now apply allDigits_skipn | apply allDigits_zeros].
    + rewrite length_app, length_skipn, repeat_length. lia.
  - apply Nat.ltb_ge in E2.
    exists (repeat (ch "0") (2 - length d) ++ str ") 00000-0000"). split.
    { intros H. apply (f_equal (@length _)) in H.
      rewrite length_app in H. cbn in H. lia. }
    exists (d ++ repeat (ch "0") (2 - length d)), (str "00000"), (str "0000").
    repeat split.
    + now rewrite <- !app_assoc.
    + apply allDigits_app; [assumption | apply allDigits_zeros].
    + rewrite length_app, repeat_length. lia.
Qed.

Example maskPhone_progress :
  maskPhone (str "1") = str "(1"
  /\ maskPhone (str "11") = str "(11"
  /\ maskPhone (str "119") = str "(11) 9"
  /\ maskPhone (str "119876") = str "(11) 9876"
  /\ maskPhone (str "1198765") = str "1198765"
  /\ maskPhone (str "1198765432") = str "1198765432"
  /\ maskPhone (str "(11) 98765-43210") = str "(11) 98765-4321".
Proof. repeat split; reflexivity. Qed.

(* ================================================================== *)
(** * Field validation *)

Lemma single_literal c m :
  forallb (N.eqb c) m = true -> 1 <= length m -> length m <= 1 -> m = [c].
Proof.
  destruct m as [|x [|y m']]; cbn; intros H H1 H2; try lia.
  rewrite andb_true_r in H. apply N.eqb_eq in H. now subst.
Qed.

Lemma notSpaceAt_plain m : forallb notSpaceAt m = true <-> Forall plain m.
Proof.
  rewrite forallb_forall, Forall_forall.
  assert (H : forall x, notSpaceAt x = true <-> plain x).
  { intros x. unfold notSpaceAt, plain.
    rewrite negb_true_iff, orb_false_iff, N.eqb_neq. tauto. }
  split; intros Hm x Hx; apply H; auto.
Qed.

Lemma nonempty_length (m : jsstring) : m <> [] <-> 1 <= length m.
Proof. destruct m; cbn; split; intros; congruence || lia. Qed.

(** The email pattern of the validator is [local@domain.tld]. *)
Lemma emailRegex_simpleEmail v : test emailRegex v = true <-> simpleEmail v.
Proof.
  rewrite test_caret by reflexivity.
  cbn [pieces dollar emailRegex matches lit cls lo hi cap within].
  split.
  - intros (m1 & r1 & -> & C1 & L1 & _ & m2 & r2 & -> & C2 & L2 & U2
            & m3 & r3 & -> & C3 & L3 & _ & m4 & r4 & -> & C4 & L4 & U4
            & m5 & r5 & -> & C5 & L5 & _ & ->).
    apply single_literal in C2; [subst m2 | assumption..].
    apply single_literal in C4; [subst m4 | assumption..].
    exists m1, m3, m5. rewrite app_nil_r.
    repeat split; try (now apply nonempty_length); try (now apply notSpaceAt_plain).
  - intros (loc & dom & tld & -> & N1 & N2 & N3 & P1 & P2 & P3).
    exists loc, (str "@" ++ dom ++ str "." ++ tld).
    repeat split; [now apply notSpaceAt_plain | now apply nonempty_length |].
    exists (str "@"), (dom ++ str "." ++ tld). repeat split; [cbn; lia..|].
    exists dom, (str "." ++ tld).
    repeat split; [now apply notSpaceAt_plain | now apply nonempty_length |].
    exists (str "."), tld. repeat split; [cbn; lia..|].
    exists tld, []. rewrite app_nil_r.
    repeat split; [now apply notSpaceAt_plain | now apply nonempty_length].
Qed.

Lemma truthy_nonempty (s : jsstring) : s <> [] -> truthy s = true.
Proof. destruct s; [congruence | reflexivity]. Qed.

Lemma type_email c : type c = str "email" -> c = Input (str "email").
Proof.
  destruct c as [t|[|]|]; cbn; intros H; try (vm_compute in H; discriminate).
  now subst.
Qed.

(** What validateField does on an email field whose trimmed value is
    not empty: the verdict is the pattern's, and the error class is set
    when it is negative. *)
Lemma validateField_email_eq f :
  type (control_ f) = str "email" ->
  trim (value f) <> [] ->
  validateField f
  = (test emailRegex (trim (value f)),
     setGroupError (negb (test emailRegex (trim (value f)))) f).
Proof.
  intros Ht Hv. apply type_email in Ht.
  unfold validateField. destruct f as [c rq v dv ge].
  cbn [control_ value required setGroupError] in Ht, Hv |- *.
  subst c. rewrite (truthy_nonempty _ Hv). cbn [negb type tagName].
  rewrite andb_false_r.
  change (eqb (str "email") (str "email")) with true.
  change (eqb (str "email") (str "tel")) with false.
  change (eqb (str "INPUT") (str "SELECT")) with false.
  cbn [andb]. now destruct (test emailRegex (trim v)).
Qed.



Lemma dropWhile_head p x s : p x = false -> dropWhile p (x :: s) = x :: s.
Proof. intros H. cbn [dropWhile]. now rewrite H. Qed.

Lemma rev_last (v : jsstring) d :
  v <> [] -> rev v = last v d :: rev (removelast v).
Proof.
  intros H. pose proof (app_removelast_last d H) as E.
  apply (f_equal (@rev _)) in E. rewrite rev_app_distr in E. exact E.
Qed.

(** Trimming leaves alone a string that neither begins nor ends with
    whitespace. *)
Lemma trim_untouched v :
  v <> [] -> isSpace (hd 0%N v) = false -> isSpace (last v 0%N) = false ->
  trim v = v.
Proof.
  intros Hne Hh Hl. unfold trim, trimStart, trimEnd.
  assert (E : dropWhile isSpace v = v).
  { destruct v as [|x v']; [congruence|]. now apply dropWhile_head. }
  rewrite E, (rev_last v 0%N Hne), (dropWhile_head _ _ _ Hl).
  rewrite <- (rev_last v 0%N Hne). apply rev_involutive.
Qed.

(** So a value without whitespace around it is judged as it stands. *)
Lemma validateField_email_untrimmed f :
  type (control_ f) = str "email" ->
  value f <> [] ->
  isSpace (hd 0%N (value f)) = false -> isSpace (last (value f) 0%N) = false ->
  (fst (validateField f) = true <-> simpleEmail (value f)).
Proof.
  intros Ht Hne Hh Hl. pose proof (trim_untouched _ Hne Hh Hl) as E.
  rewrite (validateField_email_eq f Ht) by (now rewrite E).
  cbn [fst]. rewrite E. apply emailRegex_simpleEmail.
Qed.

Example validateField_email_scenarios :
  fst (validateField (Field (Input (str "email")) true (str "not-an-email") [] false))
    = false
  /\ fst (validateField (Field (Input (str "email")) true (str "a@b.co") [] false))
    = true
  /\ fst (validateField (Field (Input (str "email")) false (str " a@b.co ") [] true))
    = true
  /\ fst (validateField (Field (Input (str "email")) false (str "a@b@c.d") [] false))
    = false
  /\ fst (validateField (Field (Input (str "email")) false (str "a b@c.d") [] false))
    = false.
Proof. repeat split; reflexivity. Qed.

(* ================================================================== *)
(** * Submission *)

Lemma validateField_flag f :
  groupError (snd (validateField f)) = negb (fst (validateField f)).
Proof.
  unfold validateField.
  match goal with
  | |- context [if negb ?b then _ else _] => destruct b
  end; reflexivity.
Qed.

Lemma validateField_keeps f :
  value (snd (validateField f)) = value f
  /\ defaultValue (snd (validateField f)) = defaultValue f.
Proof.
  unfold validateField.
  match goal with
  | |- context [if negb ?b then _ else _] => destruct b
  end; split; reflexivity.
Qed.

(** The loop of validateForm visits every input and keeps the
    conjunction of the verdicts. *)
Lemma validateEach_spec inputs : forall isValid,
  validateEach inputs isValid
  = (isValid && forallb (fun f => fst (validateField f)) inputs,
     map (fun f => snd (validateField f)) inputs).
Proof.
  induction inputs as [|f rest IH]; intros b; cbn [validateEach forallb map].
  - now rewrite andb_true_r.
  - destruct (validateField f) as [ok f'] eqn:E. rewrite IH. cbn [fst snd].
    destruct ok, b; reflexivity.
Qed.

Lemma validateForm_spec inputs :
  validateForm inputs
  = (forallb (fun f => fst (validateField f)) inputs,
     map (fun f => snd (validateField f)) inputs).
Proof. unfold validateForm. now rewrite validateEach_spec. Qed.


Lemma values_kept inputs :
  map value (map (fun f => snd (validateField f)) inputs) = map value inputs.
Proof.
  rewrite map_map. apply map_ext. intros f. apply validateField_keeps.
Qed.




(** When every field passes, handleSubmit enters the submitting state
    and leaves one timer behind. *)
Lemma handleSubmit_passes w :
  (forall f, In f (inputs w) -> passes f) ->
  handleSubmit w
  = World (map (fun f => snd (validateField f)) (inputs w))
          (Button (str "<span>Enviando...</span>") true)
          (feedbackDisplay w) (successDisplay w) (focused w) true
          (scrolled w) (now w)
          (timers w ++ [((now w + 2000)%N, SubmitDone (innerHTML (submitBtn w)))]).
Proof.
  intros H. unfold handleSubmit. rewrite validateForm_spec.
  replace (forallb _ (inputs w)) with true
    by (symmetry; apply forallb_forall; exact H).
  reflexivity.
Qed.

Lemma reset_values inputs :
  map value (map reset (map (fun f => snd (validateField f)) inputs))
  = map defaultValue inputs.
Proof.
  rewrite !map_map. apply map_ext. intros f. unfold reset, setValue.
  cbn [value]. apply validateField_keeps.
Qed.

Lemma runUntil_idle fuel t w :
  timers w = [] -> runUntil fuel t w = Some (setClock t [] w).
Proof. intros H. destruct fuel; cbn [runUntil]; now rewrite H. Qed.

Lemma runUntil_wait fuel t w due cb :
  timers w = [(due, cb)] -> (t < due)%N ->
  runUntil fuel t w = Some (setClock t [(due, cb)] w).
Proof.
  intros H Ht. apply N.leb_gt in Ht.
  destruct fuel; cbn [runUntil]; rewrite H; cbn [popEarliest]; now rewrite Ht.
Qed.

Lemma runUntil_fire fuel t w due cb :
  timers w = [(due, cb)] -> (due <= t)%N ->
  runUntil (S fuel) t w
  = runUntil fuel t (fire cb (setClock (N.max (now w) due) [] w)).
Proof.
  intros H Ht. apply N.leb_le in Ht.
  cbn [runUntil]. rewrite H. cbn [popEarliest]. now rewrite Ht.
Qed.

(** C9. When every field passes, handleSubmit prevents the event's
    default action (the browser's own submission, the only transmission
    a submit could cause), puts the button in its submitting state and
    leaves a timer due 2000 ms later. That timer's callback resets the
    fields, shows the feedback elements, gives the button its label
    back, enabled, and leaves a timer due 5000 ms later, whose callback
    hides the feedback elements. With nothing else pending the page is
    submitting until 2000 ms have passed, shows the success message
    from then until 7000 ms have passed, and has it hidden from then
    on, with no timer left. *)
Theorem handleSubmit_valid w :
  (forall f, In f (inputs w) -> passes f) ->
  let w1 := handleSubmit w in
  let t0 := now w in
  let label := innerHTML (submitBtn w) in
  (defaultPrevented w1 = true
   /\ submitBtn w1 = Button (str "<span>Enviando...</span>") true
   /\ map value (inputs w1) = map value (inputs w)
   /\ feedbackDisplay w1 = feedbackDisplay w
   /\ successDisplay w1 = successDisplay w
   /\ timers w1 = timers w ++ [((t0 + 2000)%N, SubmitDone label)])
  /\ (forall v,
        let v2 := fire (SubmitDone label) v in
        map value (inputs v2) = map defaultValue (inputs v)
        /\ feedbackDisplay v2 = str "block"
        /\ successDisplay v2 = str "flex"
        /\ submitBtn v2 = Button label false
        /\ timers v2 = timers v ++ [((now v + 5000)%N, HideFeedback)])
  /\ (forall v,
        let v3 := fire HideFeedback v in
        feedbackDisplay v3 = str "none"
        /\ successDisplay v3 = str "none"
        /\ submitBtn v3 = submitBtn v
        /\ inputs v3 = inputs v
        /\ timers v3 = timers v)
  /\ (timers w = [] -> forall fuel, 2 <= fuel ->
      (forall t, (t0 <= t < t0 + 2000)%N ->
         runUntil fuel t w1 = Some (setClock t (timers w1) w1))
      /\ (forall t, (t0 + 2000 <= t < t0 + 7000)%N ->
            exists w2, runUntil fuel t w1 = Some w2
              /\ map value (inputs w2) = map defaultValue (inputs w)
              /\ feedbackDisplay w2 = str "block"
              /\ successDisplay w2 = str "flex"
              /\ submitBtn w2 = Button label false)
      /\ (forall t, (t0 + 7000 <= t)%N ->
            exists w3, runUntil fuel t w1 = Some w3
              /\ map value (inputs w3) = map defaultValue (inputs w)
              /\ feedbackDisplay w3 = str "none"
              /\ successDisplay w3 = str "none"
              /\ submitBtn w3 = Button label false
              /\ timers w3 = [])).
Proof.
  intros Hv w1 t0 label.
  assert (E1 : w1 = World (map (fun f => snd (validateField f)) (inputs w))
                          (Button (str "<span>Enviando...</span>") true)
                          (feedbackDisplay w) (successDisplay w) (focused w) true
                          (scrolled w) t0
                          (timers w ++ [((t0 + 2000)%N, SubmitDone label)])).
  { subst w1. now rewrite handleSubmit_passes by assumption. }
  split; [|split; [|split; [|]]].
  - rewrite E1.
    cbn [defaultPrevented submitBtn inputs feedbackDisplay successDisplay timers].
    repeat split. apply values_kept.
  - intros v v2. subst v2.
    cbn [fire setTimeout inputs submitBtn feedbackDisplay successDisplay timers now].
    repeat split. rewrite map_map. reflexivity.
  - intros v v3. subst v3.
    cbn [fire inputs submitBtn feedbackDisplay successDisplay timers].
    repeat split.
  - intros Ht fuel Hf. rewrite Ht in E1. cbn [app] in E1.
    destruct fuel as [|[|fuel]]; [lia..|]. clear Hf.
    assert (Hmax : N.max t0 (t0 + 2000) = (t0 + 2000)%N) by lia.
    rewrite E1. split; [|split].
    + intros t Ht'. apply runUntil_wait; [reflexivity | lia].
    + intros t Ht'.
      rewrite (runUntil_fire _ t _ (t0 + 2000)%N (SubmitDone label));
        [ | reflexivity | lia ].
      cbn [fire setClock setTimeout inputs submitBtn feedbackDisplay
           successDisplay focused defaultPrevented scrolled now timers app].
      rewrite Hmax.
      rewrite (runUntil_wait _ t _ (t0 + 2000 + 5000)%N HideFeedback);
        [ | reflexivity | lia ].
      eexists. split; [reflexivity|].
      cbn [setClock inputs submitBtn feedbackDisplay successDisplay].
      repeat split. apply reset_values.
    + intros t Ht'.
      rewrite (runUntil_fire _ t _ (t0 + 2000)%N (SubmitDone label));
        [ | reflexivity | lia ].
      cbn [fire setClock setTimeout inputs submitBtn feedbackDisplay
           successDisplay focused defaultPrevented scrolled now timers app].
      rewrite Hmax.
      rewrite (runUntil_fire _ t _ (t0 + 2000 + 5000)%N HideFeedback);
        [ | reflexivity | lia ].
      rewrite runUntil_idle by reflexivity.
      eexists. split; [reflexivity|].
      cbn [fire setClock inputs submitBtn feedbackDisplay successDisplay timers].
      repeat split. apply reset_values.
Qed.

Lemma handleSubmit_valid_witness :
  let w := World [Field (Input (str "text")) true (str "Ana") [] false;
                  Field (Input (str "email")) true (str "a@b.co") (str "") false;
                  Field (Input (str "tel")) true (str "(11) 98765-4321") [] false]
                 (Button (str "Enviar") false) (str "none") (str "none")
                 None false 0 1000 [] in
  exists w3, runUntil 2 8000 (handleSubmit w) = Some w3
    /\ map value (inputs w3) = map defaultValue (inputs w)
    /\ feedbackDisplay w3 = str "none"
    /\ successDisplay w3 = str "none"
    /\ submitBtn w3 = Button (str "Enviar") false
    /\ timers w3 = [].
Proof.
  intros w.
  assert (Hv : forall f, In f (inputs w) -> passes f).
  { intros f [<-|[<-|[<-|[]]]]; reflexivity. }
  destruct (handleSubmit_valid w Hv) as (_ & _ & _ & H).
  destruct (H eq_refl 2 (le_n 2)) as (_ & _ & H3).
  apply (H3 8000%N). vm_compute. discriminate.
Defined.

(* ================================================================== *)
(** * The counter animations *)

(** ** Whatever the arithmetic *)

Section AnimationFacts.
Variables num text : Type.
Variable plus : num -> num -> num.
Variable below : num -> num -> bool.
Variable minimum : num -> num -> num.
Variable floorText : num -> text.
Variable target : num.
Variable targetText : text.
Variable step : num.

Local Abbreviation updSR :=
  (updateCounterSR plus below floorText target targetText step).
Local Abbreviation updAC :=
  (updateCounterAC plus below minimum floorText target targetText step).

(** Below the target Math.min hands back its first argument; at or
    above it, something not below the target. *)
Hypothesis minimum_below :
  forall x, below x target = true -> minimum x target = x.
Hypothesis minimum_reached :
  forall x, below x target = false -> below (minimum x target) target = false.

Lemma displayed_single (x : text) fs fin fin' :
  displayed ([x] :: fs, fin) = x :: displayed (fs, fin').
Proof using Type. reflexivity. Qed.

Lemma animateSR_step n c :
  animate updSR (S n) c
  = if below (plus c step) target
    then let (fs, fin) := animate updSR n (plus c step) in
         ([floorText (plus c step)] :: fs, fin)
    else ([[targetText]], true).
Proof using Type.
  cbn [animate]. unfold updateCounterSR at 1.
  now destruct (below (plus c step) target).
Qed.

Lemma animateAC_step n c :
  animate updAC (S n) c
  = if below (plus c step) target
    then let (fs, fin) := animate updAC n (plus c step) in
         ([floorText (plus c step)] :: fs, fin)
    else ([[floorText (minimum (plus c step) target); targetText]], true).
Proof using minimum_below minimum_reached.
  cbn [animate]. unfold updateCounterAC at 1.
  destruct (below (plus c step) target) eqn:E.
  - rewrite (minimum_below _ E). now rewrite E.
  - now rewrite (minimum_reached _ E).
Qed.

(** The two routines show the same values, call by call, and stop at
    the same call: from any accumulator, for any fuel. *)
Lemma animate_same_display : forall fuel c,
  displayed (animate updSR fuel c) = displayed (animate updAC fuel c)
  /\ snd (animate updSR fuel c) = snd (animate updAC fuel c).
Proof using minimum_below minimum_reached.
  induction fuel as [|n IH]; intros c; [now split|].
  rewrite animateSR_step, animateAC_step.
  destruct (below (plus c step) target); [|now split].
  specialize (IH (plus c step)).
  destruct (animate updSR n (plus c step)) as [fs1 f1].
  destruct (animate updAC n (plus c step)) as [fs2 f2].
  cbn [snd] in *. destruct IH as [IH ->]. split; [|reflexivity].
  rewrite (displayed_single _ fs1 f2 f2), (displayed_single _ fs2 f2 f2).
  now f_equal.
Qed.

End AnimationFacts.

(** ** In exact arithmetic *)

Lemma Qltb_true x y : Qltb x y = true <-> (x < y)%Q.
Proof.
  unfold Qltb. split.
  - intros H. apply negb_true_iff in H. apply Qnot_le_lt. intros Hle.
    apply Qle_bool_iff in Hle. congruence.
  - intros H. apply negb_true_iff, not_true_is_false. intros Hle.
    apply Qle_bool_iff in Hle. exact (Qlt_not_le _ _ H Hle).
Qed.

Lemma Qltb_false x y : Qltb x y = false <-> (y <= x)%Q.
Proof.
  unfold Qltb. split.
  - intros H. apply negb_false_iff in H. now apply Qle_bool_iff.
  - intros H. apply negb_false_iff. now apply Qle_bool_iff.
Qed.

Lemma Qmin_below y x : Qltb x y = true -> Qmin x y = x.
Proof.
  intros H. apply Qltb_true in H. unfold Qmin, GenericMinMax.gmin.
  destruct (Qcompare x y) eqn:E; try reflexivity.
  apply Qgt_alt in E. lra.
Qed.

Lemma Qmin_reached y x : Qltb x y = false -> Qltb (Qmin x y) y = false.
Proof.
  intros H. apply Qltb_false in H. apply Qltb_false.
  destruct (Q.min_spec x y) as [[H1 H2]|[H1 H2]]; rewrite H2; lra.
Qed.

Lemma Qfloor_clamped x T : (inject_Z T <= x)%Q -> Qfloor (Qmin x (inject_Z T)) = T.
Proof.
  intros H. rewrite <- (Qfloor_Z T) at 2. apply Qfloor_comp. now apply Q.min_r.
Qed.

Local Abbreviation updSRQ T s :=
  (updateCounterSR Qplus Qltb Qfloor (inject_Z T%Z) T%Z s).
Local Abbreviation updACQ T s :=
  (updateCounterAC Qplus Qltb Qmin Qfloor (inject_Z T%Z) T%Z s).

Lemma animateSRQ_step T s n c :
  animate (updSRQ T s) (S n) c
  = if Qltb (c + s) (inject_Z T)
    then let (fs, fin) := animate (updSRQ T s) n (c + s)%Q in
         ([Qfloor (c + s)] :: fs, fin)
    else ([[T]], true).
Proof. apply animateSR_step. Qed.

Lemma animateACQ_step T s n c :
  animate (updACQ T s) (S n) c
  = if Qltb (c + s) (inject_Z T)
    then let (fs, fin) := animate (updACQ T s) n (c + s)%Q in
         ([Qfloor (c + s)] :: fs, fin)
    else ([[Qfloor (Qmin (c + s) (inject_Z T)); T]], true).
Proof.
  apply animateAC_step; [apply Qmin_below | apply Qmin_reached].
Qed.

Lemma animateQ_same_display T fuel :
  displayed (animateCounter T fuel) = displayed (animateValue T fuel)
  /\ snd (animateCounter T fuel) = snd (animateValue T fuel).
Proof.
  unfold animateCounter, animateValue. cbv zeta.
  apply animate_same_display; [apply Qmin_below | apply Qmin_reached].
Qed.




Lemma last_snoc (l : list Z) x d : last (l ++ [x]) d = x.
Proof. apply last_last. Qed.

(** What ScrollReveal's routine shows from accumulator [c] on, with a
    step that is not negative: values that never decrease, none above
    the target, the target last if the animation ended; and it ends
    once the fuel covers the distance to the target. *)
Lemma animateSR_run T s :
  (0 <= s)%Q ->
  forall fuel c,
    let r := animate (updSRQ T s) fuel c in
    StronglySorted Z.le (displayed r)
    /\ Forall (fun d => (Z.min (Qfloor (c + s)) T <= d <= T)%Z) (displayed r)
    /\ (snd r = true -> exists l, displayed r = l ++ [T])
    /\ (1 <= fuel ->
        (inject_Z T <= c + inject_Z (Z.of_nat fuel) * s)%Q -> snd r = true).
Proof.
  intros Hs. induction fuel as [|n IH]; intros c; cbv zeta.
  - cbn. split; [constructor|]. split; [constructor|].
    split; [discriminate | intros H; inversion H].
  - rewrite animateSRQ_step. destruct (Qltb (c + s) (inject_Z T)) eqn:E.
    + apply Qltb_true in E. specialize (IH (c + s)%Q). cbv zeta in IH.
      destruct (animate (updSRQ T s) n (c + s)%Q) as [fs fin].
      rewrite (displayed_single _ _ fs fin fin). cbn [snd] in *.
      destruct IH as (Hsorted & Hall & Hlast & Hend).
      assert (Hle : (Qfloor (c + s) <= T)%Z).
      { rewrite <- (Qfloor_Z T). apply Qfloor_resp_le. lra. }
      assert (Hmono : (Qfloor (c + s) <= Qfloor (c + s + s))%Z).
      { apply Qfloor_resp_le. lra. }
      split; [|split; [|split]].
      * constructor; [assumption|].
        eapply Forall_impl; [|exact Hall]. intros d Hd. cbv beta in Hd. lia.
      * constructor; [lia|].
        eapply Forall_impl; [|exact Hall]. intros d Hd. cbv beta in Hd. lia.
      * intros Hfin. destruct (Hlast Hfin) as [l Hl].
        exists (Qfloor (c + s) :: l). now rewrite Hl.
      * intros _ Hdist.
        rewrite Nat2Z.inj_succ, <- Z.add_1_r, inject_Z_plus in Hdist.
        destruct n as [|n'].
        { change (inject_Z (Z.of_nat 0)) with 0%Q in Hdist.
          change (inject_Z 1) with 1%Q in Hdist. lra. }
        apply Hend; [lia|].
        set (k := inject_Z (Z.of_nat (S n'))) in *.
        assert (Hk : ((k + inject_Z 1) * s == k * s + s)%Q) by ring.
        rewrite Hk in Hdist. lra.
    + apply Qltb_false in E. unfold displayed. cbn [fst snd map concat lastOnly app].
      split; [repeat constructor|]. split; [repeat constructor; lia|].
      split; [intros _; now exists [] | reflexivity].
Qed.

Lemma stepOf_125 T : (125 * stepOf T == inject_Z T)%Q.
Proof. unfold stepOf, duration. field. Qed.

Lemma stepOf_nonneg T : (0 <= T)%Z -> (0 <= stepOf T)%Q.
Proof.
  intros H. pose proof (stepOf_125 T) as E.
  rewrite Zle_Qle in H. change (inject_Z 0) with 0%Q in H. lra.
Qed.

(** A hundred and twenty-five calls end the animation, whatever the
    integer target, and the target is what it shows last. *)
Lemma animateCounter_total T fuel :
  125 <= fuel ->
  snd (animateCounter T fuel) = true
  /\ exists l, displayed (animateCounter T fuel) = l ++ [T].
Proof.
  intros Hf. unfold animateCounter. cbv zeta.
  pose proof (stepOf_125 T) as E.
  destruct (Z_lt_le_dec 0 T) as [Hpos|Hneg].
  - assert (Hs : (0 <= stepOf T)%Q) by (apply stepOf_nonneg; lia).
    destruct (animateSR_run T (stepOf T) Hs fuel 0%Q) as (_ & _ & Hlast & Hend).
    assert (Hfin : snd (animate (updSRQ T (stepOf T)) fuel 0%Q) = true).
    { apply Hend; [lia|].
      assert (Hk : (inject_Z 125 <= inject_Z (Z.of_nat fuel))%Q)
        by (rewrite <- Zle_Qle; lia).
      change (inject_Z 125) with 125%Q in Hk.
      set (k := inject_Z (Z.of_nat fuel)) in *.
      assert (H0 : (0 <= (k - 125) * stepOf T)%Q)
        by (apply Qmult_le_0_compat; lra).
      assert (H1 : ((k - 125) * stepOf T == k * stepOf T - 125 * stepOf T)%Q)
        by ring.
      lra. }
    split; [exact Hfin | exact (Hlast Hfin)].
  - destruct fuel as [|n]; [lia|]. rewrite animateSRQ_step.
    replace (Qltb (0 + stepOf T) (inject_Z T)) with false.
    + split; [reflexivity | now exists []].
    + symmetry. apply Qltb_false.
      rewrite Zle_Qle in Hneg. change (inject_Z 0) with 0%Q in Hneg. lra.
Qed.



(** ** In binary64 arithmetic *)

Lemma SFltb_irrefl s : SFltb s s = false.
Proof.
  unfold SFltb. destruct s as [[|]|[|]| |[|] m e]; cbn; try reflexivity;
    rewrite ?Z.compare_refl, ?Pos.compare_refl; try reflexivity.
  all: rewrite Pos.compare_cont_refl; reflexivity.
Qed.

Lemma ltb_irrefl x : (x <? x)%float = false.
Proof. rewrite ltb_spec. apply SFltb_irrefl. Qed.

Lemma ltb_nan_l y : (nan <? y)%float = false.
Proof. rewrite ltb_spec. reflexivity. Qed.

Lemma mathMin_below t x : (x <? t)%float = true -> mathMin x t = x.
Proof. intros H. unfold mathMin. now rewrite H. Qed.

Lemma mathMin_reached t x :
  (x <? t)%float = false -> (mathMin x t <? t)%float = false.
Proof.
  intros H. unfold mathMin. rewrite H.
  destruct (t <? x)%float; [apply ltb_irrefl|].
  destruct (x =? t)%float; [|apply ltb_nan_l].
  destruct (1 / x <? 0)%float; [exact H | apply ltb_irrefl].
Qed.

Lemma animateF_same_display target fuel :
  displayed (animateCounterF target fuel) = displayed (animateValueF target fuel)
  /\ snd (animateCounterF target fuel) = snd (animateValueF target fuel).
Proof.
  unfold animateCounterF, animateValueF. cbv zeta.
  apply animate_same_display; [apply mathMin_below | apply mathMin_reached].
Qed.

(** Rounding shows: in binary64 the target 100 is reached at the 126th
    call, not the 125th, the values shown being the same in both
    routines, ascending, and 100 the last. *)
Example counters_binary64 :
  let r := animateValueF 100 200 in
  snd r = true
  /\ length (displayed r) = 126
  /\ ascending (displayed r) = true
  /\ last (displayed r) 0%float = 100%float
  /\ displayed (animateCounterF 100 200) = displayed r
  /\ length (displayed (animateValue 100 200)) = 125.
Proof. vm_compute. repeat split. Qed.


(** Some large targets in binary64: the largest integers that are
    exact, powers of ten beyond them, the largest number there is. *)
Example counters_binary64_large :
  forallb (fun T => reachesTargetF T (animateValueF T 200)
                    && reachesTargetF T (animateCounterF T 200))
          [99999; 123456789; 4294967296; 999999999999; 9007199254740991;
           9007199254740992; 0x1p+60; 0x1p+100; 0x1p+1000;
           0x1.fffffffffffffp+1023]%float
  = true.
Proof. vm_compute. reflexivity. Qed.




(** C10. For every integer target the two animations show the same
    values call by call and agree on whether the animation is over,
    whatever the number of calls made; with 125 calls or more both are
    over and both have shown the target last. The agreement does not
    rest on exact arithmetic: it holds call by call in binary64 as
    well, for every target a number can be. *)
Theorem counters_same_display T :
  (forall fuel,
     displayed (animateCounter T fuel) = displayed (animateValue T fuel)
     /\ snd (animateCounter T fuel) = snd (animateValue T fuel))
  /\ (forall fuel, 125 <= fuel ->
       snd (animateCounter T fuel) = true
       /\ snd (animateValue T fuel) = true
       /\ last (displayed (animateCounter T fuel)) 0%Z = T
       /\ last (displayed (animateValue T fuel)) 0%Z = T)
  /\ (forall target fuel,
       displayed (animateCounterF target fuel)
       = displayed (animateValueF target fuel)
       /\ snd (animateCounterF target fuel) = snd (animateValueF target fuel)).
Proof.
  split; [intros fuel; apply animateQ_same_display|].
  split; [|intros target fuel; apply animateF_same_display].
  intros fuel Hf. destruct (animateQ_same_display T fuel) as [Hd Hs].
  destruct (animateCounter_total T fuel Hf) as [Hfin [l Hl]].
  rewrite <- Hd, <- Hs, Hl, last_snoc. now repeat split.
Qed.

Lemma counters_same_display_witness :
  displayed (animateCounter (-3) 200) = displayed (animateValue (-3) 200)
  /\ last (displayed (animateValue 250 125)) 0%Z = 250%Z
  /\ displayed (animateCounterF 100 126) = displayed (animateValueF 100 126).
Proof.
  split; [|split].
  - apply (counters_same_display (-3)).
  - apply (counters_same_display 250). apply le_n.
  - apply (counters_same_display 0).
Defined.

(* ================================================================== *)
(** * Navigation *)

Section NavigationFacts.
Import Navigation.

Lemma openMenu_consistent n : consistent (openMenu n).
Proof. repeat split. Qed.

Lemma closeMenu_consistent n : consistent (closeMenu n).
Proof. repeat split. Qed.

(** Every call and every event leaves the state as it was, or as
    openMenu or closeMenu leave it. *)
Lemma perform_cases a n :
  perform a n = n \/ perform a n = openMenu n \/ perform a n = closeMenu n.
Proof.
  destruct a as [| | |[p|key]]; cbn [perform dispatch]; unfold toggleMenu.
  - destruct (isOpen n); auto.
  - auto.
  - auto.
  - destruct p as [|b| |]; destruct (isOpen n) eqn:E;
      cbn [isOpen openMenu closeMenu menuContains toggleContains andb negb];
      rewrite ?E; cbn [andb negb]; auto; destruct b; auto.
  - destruct (eqb key (str "Escape") && isOpen n); auto.
Qed.

Lemma perform_consistent a n : consistent n -> consistent (perform a n).
Proof.
  intros H. destruct (perform_cases a n) as [->|[->| ->]];
    auto using openMenu_consistent, closeMenu_consistent.
Qed.

Lemma performAll_consistent l : forall n,
  consistent n -> consistent (performAll l n).
Proof.
  induction l as [|a l IH]; intros n H; [exact H|].
  apply IH, perform_consistent, H.
Qed.

(** A call of toggleMenu, openMenu or closeMenu settles all four,
    whatever the state before. *)
Lemma call_consistent a n : isCall a -> consistent (perform a n).
Proof.
  destruct a; cbn [isCall perform]; intros H; try contradiction;
    unfold toggleMenu; try destruct (isOpen n);
    auto using openMenu_consistent, closeMenu_consistent.
Qed.

Lemma performAll_calls l n :
  l <> [] -> Forall isCall l -> consistent (performAll l n).
Proof.
  destruct l as [|a l]; [congruence|]. intros _ H. inversion H; subst.
  cbn [performAll fold_left]. fold (performAll l (perform a n)).
  now apply performAll_consistent, call_consistent.
Qed.
End NavigationFacts.

(** C6. openMenu sets the open flag, the menu's active class,
    aria-expanded to "true" and the body's scroll lock together, and
    closeMenu takes all of them back. So after any sequence of toggle,
    open and close calls the flag, the class, the attribute and the
    lock agree; and from a state in which they agree, clicks and key
    presses keep them so as well. An open menu is closed by a click
    outside menu and toggle, by the Escape key, and by a click on a
    menu link. *)
Theorem navigation_menu_consistent (n : Navigation.nav) (l : list Navigation.action) :
  let m := Navigation.performAll l n in
  (l <> [] -> Forall Navigation.isCall l -> Navigation.consistent m)
  /\ (Navigation.consistent n -> Navigation.consistent m)
  /\ Navigation.openMenu m
     = Navigation.Nav true true (Some (str "true")) (str "hidden")
                      (Navigation.navbarScrolled m)
  /\ Navigation.closeMenu m
     = Navigation.Nav false false (Some (str "false")) (str "")
                      (Navigation.navbarScrolled m)
  /\ Navigation.consistent (Navigation.toggleMenu m)
  /\ Navigation.isOpen (Navigation.toggleMenu m) = negb (Navigation.isOpen m)
  /\ (Navigation.isOpen m = true ->
      Navigation.dispatch (Navigation.Click Navigation.Elsewhere) m
        = Navigation.closeMenu m
      /\ Navigation.dispatch (Navigation.KeyDown (str "Escape")) m
        = Navigation.closeMenu m
      /\ forall b, Navigation.dispatch (Navigation.Click (Navigation.OnLink b)) m
                   = Navigation.closeMenu m).
Proof.
  intros m. split; [now apply performAll_calls|].
  split; [now apply performAll_consistent|].
  split; [reflexivity|]. split; [reflexivity|].
  split; [exact (call_consistent Navigation.CallToggle m I)|].
  split; [unfold Navigation.toggleMenu; now destruct (Navigation.isOpen m)|].
  intros Ho. cbn [Navigation.dispatch]. rewrite Ho.
  split; [reflexivity|]. split; [reflexivity|]. intros b. reflexivity.
Qed.

Lemma navigation_menu_consistent_witness :
  let n := Navigation.Nav false true None (str "hidden") false in
  let l := [Navigation.CallToggle; Navigation.CallClose; Navigation.CallOpen] in
  Navigation.performAll l n
    = Navigation.Nav true true (Some (str "true")) (str "hidden") false
  /\ Navigation.consistent (Navigation.performAll l n)
  /\ Navigation.dispatch (Navigation.Click Navigation.Elsewhere)
       (Navigation.performAll l n)
     = Navigation.Nav false false (Some (str "false")) (str "") false.
Proof.
  intros n l.
  destruct (navigation_menu_consistent n l) as (Hc & _ & _ & _ & _ & _ & Hclose).
  split; [reflexivity|]. split.
  - apply Hc; [discriminate | repeat constructor].
  - destruct (Hclose eq_refl) as [-> _]. reflexivity.
Defined.

(* ================================================================== *)
(** * The observers *)

Section ObserverFacts.
Import Observers.
Variable counterIn : elem -> option elem.

Lemma callbackSR_keeps es : forall d,
  counted (callbackSR es d) = counted d
  /\ animations (callbackSR es d) = animations d
  /\ revealed (callbackSR es d) = revealed d.
Proof.
  induction es as [|e es IH]; intros d; [now repeat split|].
  cbn [callbackSR fold_left]. fold (callbackSR es (onRevealEntry e d)).
  destruct (IH (onRevealEntry e d)) as (-> & -> & ->).
  unfold onRevealEntry. now destruct (isIntersecting e).
Qed.

Lemma animationsOf_start by_ c x d :
  x <> c ->
  animationsOf c (startAnimation by_ x d) = animationsOf c d.
Proof.
  intros Hne. unfold animationsOf, startAnimation. cbn [animations].
  rewrite List.filter_app. cbn [List.filter snd].
  replace (Nat.eqb x c) with false by (symmetry; now apply Nat.eqb_neq).
  apply app_nil_r.
Qed.

(** One entry of the counter callback: an element already counted
    keeps its class and gets no further animation. *)
Lemma onCounterEntry_counted c e d :
  c ∈ counted d ->
  c ∈ counted (onCounterEntry e d)
  /\ animationsOf c (onCounterEntry e d) = animationsOf c d.
Proof.
  intros Hc. unfold onCounterEntry.
  destruct (isIntersecting e); cbn [andb]; [|now split].
  destruct (bool_decide (target e ∈ counted d)) eqn:E; cbn [negb]; [now split|].
  apply bool_decide_eq_false in E.
  split.
  - cbn [counted startAnimation]. set_solver.
  - change (animationsOf c (startAnimation ByAnimateValue (target e) d)
            = animationsOf c d).
    apply animationsOf_start. intros Heq. apply E. now rewrite Heq.
Qed.

Lemma callbackAC_counted c es : forall d,
  c ∈ counted d ->
  c ∈ counted (callbackAC es d)
  /\ animationsOf c (callbackAC es d) = animationsOf c d.
Proof.
  induction es as [|e es IH]; intros d Hc; [now split|].
  cbn [callbackAC fold_left]. fold (callbackAC es (onCounterEntry e d)).
  destruct (onCounterEntry_counted c e d Hc) as [Hc' Ha].
  destruct (IH _ Hc') as [Hc'' Ha']. split; [assumption | congruence].
Qed.

Lemma revealNow_counted c x d :
  c ∈ counted d ->
  c ∈ counted (revealNow counterIn x d)
  /\ animationsOf c (revealNow counterIn x d) = animationsOf c d.
Proof.
  intros Hc. unfold revealNow. destruct (counterIn x) as [c'|]; [|now split].
  cbn [counted]. destruct (decide (c' ∈ counted d)) as [Hin|Hout]; [now split|].
  split.
  - cbn [counted startAnimation]. set_solver.
  - rewrite animationsOf_start; [reflexivity|].
    intros Heq. apply Hout. now rewrite Heq.
Qed.

Lemma exec_counted c st d :
  c ∈ counted d ->
  c ∈ counted (exec counterIn st d)
  /\ animationsOf c (exec counterIn st d) = animationsOf c d.
Proof.
  intros Hc. destruct st as [es|es|i]; cbn [exec].
  - destruct (callbackSR_keeps es d) as (Hk & Ha & _).
    unfold animationsOf. rewrite Hk, Ha. now split.
  - now apply callbackAC_counted.
  - unfold runTimer. destruct (nth_error (pending d) i) as [x|]; [|now split].
    match goal with
    | |- context [revealNow counterIn x ?d'] =>
        destruct (revealNow_counted c x d' Hc) as [H1 H2]
    end.
    split; [exact H1 | exact H2].
Qed.

(** An element that bears [counted] is never animated again. *)
Lemma counted_never_again c steps : forall d,
  c ∈ counted d ->
  animationsOf c (execAll counterIn steps d) = animationsOf c d.
Proof.
  induction steps as [|st steps IH]; intros d Hc; [reflexivity|].
  cbn [execAll fold_left]. fold (execAll counterIn steps (exec counterIn st d)).
  destruct (exec_counted c st d Hc) as [Hc' Ha]. rewrite IH; assumption.
Qed.

(** A delivery repeated changes nothing: the first one ended the
    observation of the target. *)
Lemma deliverSR_twice e d : deliverSR e (deliverSR e d) = deliverSR e d.
Proof.
  destruct (decide (target e ∈ observedSR d)) as [Hin|Hout].
  - assert (E1 : deliverSR e d = onRevealEntry e d)
      by (unfold deliverSR; now rewrite decide_True).
    rewrite E1. unfold onRevealEntry. destruct (isIntersecting e) eqn:E.
    + unfold deliverSR. cbn [observedSR target]. rewrite decide_False; set_solver.
    + rewrite E1. unfold onRevealEntry. now rewrite E.
  - assert (E1 : deliverSR e d = d)
      by (unfold deliverSR; now rewrite decide_False).
    now rewrite !E1.
Qed.

Lemma deliverAC_twice e d : deliverAC e (deliverAC e d) = deliverAC e d.
Proof.
  destruct (decide (target e ∈ observedAC d)) as [Hin|Hout].
  - assert (E1 : deliverAC e d = onCounterEntry e d)
      by (unfold deliverAC; now rewrite decide_True).
    rewrite E1. unfold onCounterEntry.
    destruct (isIntersecting e && negb (bool_decide (target e ∈ counted d))) eqn:E.
    + unfold deliverAC. cbn [observedAC startAnimation target].
      rewrite decide_False; set_solver.
    + rewrite E1. unfold onCounterEntry. now rewrite E.
  - assert (E1 : deliverAC e d = d)
      by (unfold deliverAC; now rewrite decide_False).
    now rewrite !E1.
Qed.

(** After the trigger the target is observed no more. *)
Lemma deliverSR_unobserves e d :
  isIntersecting e = true -> target e ∉ observedSR (deliverSR e d).
Proof.
  intros Hi. unfold deliverSR.
  destruct (decide (target e ∈ observedSR d)) as [Hin|Hout]; [|assumption].
  cbn [callbackSR fold_left]. unfold onRevealEntry. rewrite Hi.
  cbn [observedSR]. set_solver.
Qed.

Lemma deliverAC_unobserves e d :
  isIntersecting e = true -> target e ∉ counted d ->
  (target e ∉ observedAC (deliverAC e d))
  /\ (target e ∈ observedAC d ->
      target e ∈ counted (deliverAC e d)
      /\ animations (deliverAC e d) = animations d ++ [(ByAnimateValue, target e)]).
Proof.
  intros Hi Hc. unfold deliverAC.
  destruct (decide (target e ∈ observedAC d)) as [Hin|Hout]; [|now split].
  cbn [callbackAC fold_left]. unfold onCounterEntry. rewrite Hi.
  rewrite (bool_decide_eq_false_2 _ Hc). cbn [andb negb].
  cbn [observedAC counted animations startAnimation].
  split; [set_solver|]. intros _. split; [set_solver | reflexivity].
Qed.

(** Once the reveal timer of [x] has run, [x] is settled; and on a
    settled element a further timer shows nothing new. *)
Lemma revealNow_settles x d : settled counterIn x (revealNow counterIn x d).
Proof.
  unfold settled, revealNow. destruct (counterIn x) as [c|] eqn:E.
  - cbn [counted]. destruct (decide (c ∈ counted d)); split;
      cbn [revealed counted startAnimation]; set_solver.
  - split; [cbn [revealed]; set_solver | exact I].
Qed.

Lemma runTimer_settled i x d :
  settled counterIn x d -> nth_error (pending d) i = Some x ->
  visible (runTimer counterIn i d) = visible d.
Proof.
  intros [Hr Hc] Hn. unfold runTimer. rewrite Hn. unfold revealNow, visible.
  destruct (counterIn x) as [c|].
  - cbn [counted]. destruct (decide (c ∈ counted d)) as [_|Hout];
      [|contradiction].
    cbn [revealed counted animations]. f_equal. f_equal. set_solver.
  - cbn [revealed counted animations]. f_equal. f_equal. set_solver.
Qed.
End ObserverFacts.

(** C7. A second delivery of an entry by either observer changes
    nothing, because the first delivery of an intersecting entry ends
    the observation of its target; the counter callback animates an
    uncounted target once and marks it [counted]; whatever happens
    next (callbacks of either observer, reveal timers, in any order),
    an element bearing [counted] gets no further animation; and once
    the reveal timer of an element has run, a further timer for it
    shows nothing new. *)
Theorem observers_fire_once
    (counterIn : Observers.elem -> option Observers.elem)
    (e : Observers.entry) (d : Observers.dom) :
  Observers.deliverSR e (Observers.deliverSR e d) = Observers.deliverSR e d
  /\ Observers.deliverAC e (Observers.deliverAC e d) = Observers.deliverAC e d
  /\ (Observers.isIntersecting e = true ->
      Observers.target e ∉ Observers.observedSR (Observers.deliverSR e d))
  /\ (Observers.isIntersecting e = true ->
      Observers.target e ∉ Observers.counted d ->
      (Observers.target e ∉ Observers.observedAC (Observers.deliverAC e d))
      /\ (Observers.target e ∈ Observers.observedAC d ->
          Observers.target e ∈ Observers.counted (Observers.deliverAC e d)
          /\ Observers.animations (Observers.deliverAC e d)
             = Observers.animations d
               ++ [(Observers.ByAnimateValue, Observers.target e)]))
  /\ (forall c steps,
        c ∈ Observers.counted d ->
        Observers.animationsOf c (Observers.execAll counterIn steps d)
        = Observers.animationsOf c d)
  /\ (forall x d0, Observers.settled counterIn x (Observers.revealNow counterIn x d0))
  /\ (forall x i,
        Observers.settled counterIn x d ->
        nth_error (Observers.pending d) i = Some x ->
        Observers.visible (Observers.runTimer counterIn i d) = Observers.visible d).
Proof.
  split; [apply deliverSR_twice|]. split; [apply deliverAC_twice|].
  split; [apply deliverSR_unobserves|]. split; [apply deliverAC_unobserves|].
  split; [intros c steps; apply counted_never_again|].
  split; [intros x d0; apply revealNow_settles|].
  intros x i. apply runTimer_settled.
Qed.

Lemma observers_fire_once_witness :
  let counterIn := fun x => if Nat.eqb x 1 then Some 2 else None in
  let e := Observers.Entry 1 true in
  let d := Observers.Dom ∅ ∅ {[1]} {[2]} [] [] in
  let d1 := Observers.runTimer counterIn 0
              (Observers.deliverSR e (Observers.deliverSR e d)) in
  Observers.animations d1 = [(Observers.ByAnimateCounter, 2)]
  /\ Observers.animationsOf 2
       (Observers.execAll counterIn
          [Observers.CounterCallback [Observers.Entry 2 true];
           Observers.RevealCallback [e]; Observers.Timer 0] d1)
     = [(Observers.ByAnimateCounter, 2)].
Proof.
  intros counterIn e d d1.
  destruct (observers_fire_once counterIn e d) as (Htwice & _).
  assert (Ha : Observers.animations d1 = [(Observers.ByAnimateCounter, 2)]).
  { subst d1. rewrite Htwice. reflexivity. }
  split; [exact Ha|].
  destruct (observers_fire_once counterIn e d1) as (_ & _ & _ & _ & Hnever & _).
  rewrite Hnever.
  - unfold Observers.animationsOf. rewrite Ha. reflexivity.
  - subst d1. rewrite Htwice. vm_compute. set_solver.
Defined.

(* ================================================================== *)
(** * Construction of the components *)

Section AppFacts.
Import App.

(** Every constructor but Navigation's returns, on every page. *)
Lemma construct_returns c p :
  c <> CNavigation -> exists log, construct c p = Returned log.
Proof.
  intros Hc. destruct c; try congruence; cbn [construct];
    unfold SmoothScroll, FormHandler, BackToTop, ParallaxEffect, ScrollReveal,
           CardTilt, AnimatedCounters, HeroScroll, PartnerSlider, LazyImages,
           AccessibilityHelpers, PerformanceMonitor;
    repeat match goal with
           | |- context [match ?x with _ => _ end] => destruct x
           end; eauto.
Qed.

(** Without its expected element each guarded constructor does
    nothing at all. *)
Lemma construct_guarded p :
  (form p = None -> construct CFormHandler p = Returned [])
  /\ (backToTop p = None -> construct CBackToTop p = Returned [])
  /\ (layers p = [] -> construct CParallaxEffect p = Returned [])
  /\ (reveals p = [] -> construct CScrollReveal p = Returned [])
  /\ (cards p = [] -> construct CCardTilt p = Returned [])
  /\ (counters p = [] -> construct CAnimatedCounters p = Returned [])
  /\ (heroScroll p = None -> construct CHeroScroll p = Returned [])
  /\ (track p = None -> construct CPartnerSlider p = Returned []).
Proof.
  cbn [construct].
  unfold FormHandler, BackToTop, ParallaxEffect, ScrollReveal, CardTilt,
         AnimatedCounters, HeroScroll, PartnerSlider.
  repeat split; intros ->; reflexivity.
Qed.

(** Navigation's constructor returns when the navbar is there, with
    or without toggle and menu. *)
Lemma Navigation_returns p :
  navbar p <> None -> exists log, Navigation p = Returned log.
Proof.
  intros H. unfold Navigation, handleScroll.
  destruct (navbar p); [|congruence].
  destruct (50 <? scrollY p)%Z; cbn [andThen]; eauto.
Qed.

Lemma component_eq_dec c : {c = CNavigation} + {c <> CNavigation}.
Proof. destruct c; (now left) || (right; discriminate). Qed.

Lemma constructAll_returns cs p :
  navbar p <> None ->
  exists log, constructAll cs p = (Returned log, cs).
Proof.
  intros H. induction cs as [|c cs [log IH]]; cbn [constructAll]; [eauto|].
  assert (Hc : exists l, construct c p = Returned l).
  { destruct (component_eq_dec c) as [->|Hne];
      [apply Navigation_returns, H | now apply construct_returns]. }
  destruct Hc as [l ->]. rewrite IH. cbn [andThen]. eauto.
Qed.
End AppFacts.

(** With the navbar on the page initComponents constructs every
    component and returns, whatever else is missing. *)
Lemma initComponents_with_navbar p :
  App.navbar p <> None ->
  exists log done,
    App.initComponents p = (App.Returned log, done)
    /\ length done = (if App.production p then 13 else 12).
Proof.
  intros H. unfold App.initComponents.
  destruct (App.production p);
    match goal with
    | |- context [App.constructAll ?cs p] =>
        destruct (constructAll_returns cs p H) as [log ->]
    end; cbn [App.andThen]; eauto.
Qed.

(** C5, where it fails. On a page without [.navbar], the constructor of
    Navigation throws: init calls handleScroll, which reads
    [classList] of the missing navbar. The exception leaves
    initComponents at its first statement: no component is
    constructed, and all that was done is the click listeners put on
    the toggle and on the links. *)
Theorem initComponents_without_navbar p :
  App.navbar p = None ->
  App.construct App.CNavigation p
    = App.Thrown
        (match App.toggle p with
         | Some t => [App.AddListener (App.El t) (str "click")]
         | None => []
         end
         ++ App.each (fun l => [App.AddListener (App.El l) (str "click")])
                     (App.links p))
  /\ App.initComponents p = (App.construct App.CNavigation p, []).
Proof.
  intros H.
  assert (E : App.construct App.CNavigation p
    = App.Thrown
        (match App.toggle p with
         | Some t => [App.AddListener (App.El t) (str "click")]
         | None => []
         end
         ++ App.each (fun l => [App.AddListener (App.El l) (str "click")])
                     (App.links p))).
  { cbn [App.construct]. unfold App.Navigation, App.handleScroll. rewrite H.
    cbn [App.andThen]. now rewrite app_nil_r. }
  split; [exact E|].
  unfold App.initComponents.
  destruct (App.production p); cbn [App.constructAll app]; now rewrite E.
Qed.

Lemma initComponents_without_navbar_witness :
  let p := App.Page None (Some 1) (Some 2) [3; 4] [3; 4] (Some 5) [6; 7; 8]
             (Some 8) (Some 9) [10] [11; 12] [13] [14; 15] (Some 16) (Some 17)
             [18] (fun _ => str "fade") false false true true true 0 in
  App.initComponents p
  = (App.Thrown [App.AddListener (App.El 1) (str "click");
                 App.AddListener (App.El 3) (str "click");
                 App.AddListener (App.El 4) (str "click")], []).
Proof.
  intros p. destruct (initComponents_without_navbar p eq_refl) as [E ->].
  rewrite E. reflexivity.
Defined.

(* ================================================================== *)
(** * The mask, beyond the claims *)

Lemma digitsOf_app a b : digitsOf (a ++ b) = digitsOf a ++ digitsOf b.
Proof. apply List.filter_app. Qed.

Lemma digitsOf_allDigits s : allDigits s -> digitsOf s = s.
Proof.
  unfold allDigits, digitsOf. induction s as [|x s IH]; [reflexivity|].
  cbn [forallb List.filter]. intros H. apply andb_true_iff in H as [Hx Hs].
  rewrite Hx. f_equal. now apply IH.
Qed.

Lemma maskPhone_layout raw : maskPhone raw = layoutOf (firstn 11 (digitsOf raw)).
Proof.
  rewrite maskPhone_cases. cbv zeta.
  destruct (value_of_mask raw) as [Hd Hl]. cbv zeta in Hd, Hl.
  assert (Hv : (if 11 <? length (digitsOf raw)
                then slice0 11 (digitsOf raw) else digitsOf raw)
               = firstn 11 (digitsOf raw)).
  { destruct (11 <? length (digitsOf raw)) eqn:E; [reflexivity|].
    apply Nat.ltb_ge in E. symmetry. now apply firstn_all2. }
  rewrite Hv in *. set (v := firstn 11 (digitsOf raw)) in *.
  unfold layoutOf. destruct (length v =? 11) eqn:E11.
  - apply Nat.eqb_eq in E11. rewrite E11. cbn [Nat.ltb Nat.leb].
    now apply replace_full.
  - apply Nat.eqb_neq in E11. destruct (6 <? length v) eqn:E6.
    + apply replace_full_short. lia.
    + destruct (2 <? length v) eqn:E2.
      * apply Nat.ltb_lt in E2. apply Nat.ltb_ge in E6.
        apply replace_partial; [assumption | lia].
      * destruct (0 <? length v) eqn:E0; [now apply replace_open|].
        apply Nat.ltb_ge in E0. destruct v; [reflexivity | cbn in E0; lia].
Qed.

Lemma digitsOf_layoutOf v : allDigits v -> digitsOf (layoutOf v) = v.
Proof.
  intros Hd. unfold layoutOf.
  assert (H2 : digitsOf (firstn 2 v) = firstn 2 v)
    by now apply digitsOf_allDigits, allDigits_firstn.
  assert (H5 : digitsOf (firstn 5 (skipn 2 v)) = firstn 5 (skipn 2 v))
    by now apply digitsOf_allDigits, allDigits_firstn, allDigits_skipn.
  assert (S2 : digitsOf (skipn 2 v) = skipn 2 v)
    by now apply digitsOf_allDigits, allDigits_skipn.
  assert (S7 : digitsOf (skipn 7 v) = skipn 7 v)
    by now apply digitsOf_allDigits, allDigits_skipn.
  destruct (length v =? 11).
  - rewrite !digitsOf_app, H2, H5, S7.
    change (digitsOf (str "(")) with (@nil char).
    change (digitsOf (str ") ")) with (@nil char).
    change (digitsOf (str "-")) with (@nil char).
    cbn [app].
    rewrite <- (firstn_skipn 2 v) at 4. f_equal.
    rewrite <- (firstn_skipn 5 (skipn 2 v)) at 2. f_equal.
    now rewrite skipn_skipn.
  - destruct (6 <? length v); [now apply digitsOf_allDigits|].
    destruct (2 <? length v).
    + rewrite !digitsOf_app, H2, S2.
      change (digitsOf (str "(")) with (@nil char).
      change (digitsOf (str ") ")) with (@nil char).
      cbn [app]. apply firstn_skipn.
    + destruct (0 <? length v) eqn:E0.
      * rewrite digitsOf_app. change (digitsOf (str "(")) with (@nil char).
        now apply digitsOf_allDigits.
      * apply Nat.ltb_ge in E0. destruct v; [reflexivity | cbn in E0; lia].
Qed.

Lemma digitsOf_maskPhone raw :
  digitsOf (maskPhone raw) = firstn 11 (digitsOf raw).
Proof.
  rewrite maskPhone_layout. apply digitsOf_layoutOf, allDigits_firstn,
    allDigits_digitsOf.
Qed.

Lemma layoutOf_empty v : layoutOf v = [] <-> v = [].
Proof.
  split; [|now intros ->].
  unfold layoutOf. destruct v as [|x v]; [reflexivity|].
  destruct (length (x :: v) =? 11); [discriminate|].
  destruct (6 <? length (x :: v)); [now intros|].
  destruct (2 <? length (x :: v)); [discriminate|].
  cbn [Nat.ltb Nat.leb length]. discriminate.
Qed.

Lemma layoutOf_length v :
  length (layoutOf v)
  = if length v =? 11 then 15
    else if 6 <? length v then length v
    else if 2 <? length v then length v + 3
    else if 0 <? length v then length v + 1
    else 0.
Proof.
  unfold layoutOf. destruct (length v =? 11) eqn:E11.
  - apply Nat.eqb_eq in E11.
    rewrite !length_app, !length_firstn, !length_skipn. cbn [length str
      String.list_ascii_of_string map]. lia.
  - destruct (6 <? length v); [reflexivity|].
    destruct (2 <? length v) eqn:E2.
    + apply Nat.ltb_lt in E2.
      rewrite !length_app, !length_firstn, !length_skipn. cbn [length str
        String.list_ascii_of_string map]. lia.
    + destruct (0 <? length v); [|reflexivity].
      rewrite length_app. cbn [length str String.list_ascii_of_string map]. lia.
Qed.

Lemma maskChar_digits v : allDigits v -> Forall maskChar v.
Proof.
  unfold allDigits. rewrite forallb_forall, Forall_forall.
  intros H x Hx. left. now apply H.
Qed.

Lemma layoutOf_chars v : allDigits v -> Forall maskChar (layoutOf v).
Proof.
  intros Hd. unfold layoutOf.
  assert (L : forall s, (forall c, In c s -> In c (str "() -")) -> Forall maskChar s).
  { intros s H. apply Forall_forall. intros c Hc. right. now apply H. }
  assert (P1 : Forall maskChar (str "(")) by (apply L; cbn; tauto).
  assert (P2 : Forall maskChar (str ") ")) by (apply L; cbn; tauto).
  assert (P3 : Forall maskChar (str "-")) by (apply L; cbn; tauto).
  destruct (length v =? 11).
  - repeat (apply Forall_app; split); try assumption;
      auto using maskChar_digits, allDigits_firstn, allDigits_skipn.
  - destruct (6 <? length v); [now apply maskChar_digits|].
    destruct (2 <? length v).
    + repeat (apply Forall_app; split); try assumption;
        auto using maskChar_digits, allDigits_firstn, allDigits_skipn.
    + destruct (0 <? length v); [|constructor].
      apply Forall_app; split; [assumption | now apply maskChar_digits].
Qed.

(** X1. The mask keeps the digits of the raw value, in their order, up
    to the eleventh, and nothing else of it: two raw values with the
    same digits are masked alike. *)
Theorem maskPhone_keeps_digits raw :
  digitsOf (maskPhone raw) = firstn 11 (digitsOf raw)
  /\ forall raw', digitsOf raw' = digitsOf raw -> maskPhone raw' = maskPhone raw.
Proof.
  split; [apply digitsOf_maskPhone|].
  intros raw' E. now rewrite !maskPhone_layout, E.
Qed.

(** X2. Masking a masked value changes nothing. *)
Theorem maskPhone_idempotent raw : maskPhone (maskPhone raw) = maskPhone raw.
Proof.
  rewrite (maskPhone_layout (maskPhone raw)), digitsOf_maskPhone.
  rewrite firstn_firstn, Nat.min_id. symmetry. apply maskPhone_layout.
Qed.

(** X3. The masked value is made of digits and of the characters
    [(], [)], space and [-]; it is at most fifteen characters long; and
    it is empty exactly when the raw value holds no digit. *)
Theorem maskPhone_alphabet raw :
  Forall maskChar (maskPhone raw)
  /\ length (maskPhone raw) <= 15
  /\ (maskPhone raw = [] <-> digitsOf raw = []).
Proof.
  rewrite maskPhone_layout.
  assert (Hd : allDigits (firstn 11 (digitsOf raw)))
    by apply allDigits_firstn, allDigits_digitsOf.
  assert (Hl : length (firstn 11 (digitsOf raw)) <= 11)
    by (rewrite length_firstn; lia).
  split; [now apply layoutOf_chars|]. split.
  - rewrite layoutOf_length.
    destruct (length _ =? 11); [lia|].
    destruct (6 <? length _) eqn:E6; [lia|]. apply Nat.ltb_ge in E6.
    destruct (2 <? length _); [lia|]. destruct (0 <? length _); lia.
  - rewrite layoutOf_empty. destruct (digitsOf raw); cbn; split; congruence.
Qed.

(* ================================================================== *)
(** * Validation, beyond the claims *)

(** What the phone pattern accepts is of the full shape. *)
Lemma phoneRegex_shape s : test phoneRegex s = true -> fullShape s.
Proof.
  rewrite test_caret by reflexivity.
  cbn [pieces dollar phoneRegex matches lit digits cls lo hi cap within].
  intros (m1 & r1 & -> & C1 & L1 & U1 & m2 & r2 & -> & C2 & L2 & U2
          & m3 & r3 & -> & C3 & L3 & U3 & m4 & r4 & -> & C4 & L4 & U4
          & m5 & r5 & -> & C5 & L5 & U5 & m6 & r6 & -> & C6 & L6 & U6
          & m7 & r7 & -> & C7 & L7 & U7 & ->).
  apply single_literal in C1; [subst m1 | assumption..].
  apply single_literal in C3; [subst m3 | assumption..].
  apply single_literal in C4; [subst m4 | assumption..].
  apply single_literal in C6; [subst m6 | assumption..].
  exists m2, m5, m7. rewrite app_nil_r.
  repeat split; try assumption; lia.
Qed.

Lemma fullShape_length s : fullShape s -> length s = 15.
Proof.
  intros (a & b & c & -> & _ & La & _ & Lb & _ & Lc).
  rewrite !length_app, La, Lb, Lc. reflexivity.
Qed.

Lemma truthy_false (s : jsstring) : truthy s = false <-> s = [].
Proof. destruct s; cbn; split; congruence. Qed.

(** The verdict of validateField, rule by rule. *)
Lemma validateField_fst f :
  fst (validateField f)
  = if truthy (trim (value f)) then
      if eqb (type (control_ f)) (str "email")
      then test emailRegex (trim (value f))
      else if eqb (type (control_ f)) (str "tel")
           then test phoneRegex (trim (value f))
           else true
    else negb (required f).
Proof.
  unfold validateField. destruct f as [c rq v dv ge].
  cbn [control_ value required setGroupError].
  assert (Hsel : forall m, eqb (type (Select m)) (str "email") = false
                           /\ eqb (type (Select m)) (str "tel") = false)
    by (intros [|]; split; reflexivity).
  assert (Hex : forall t, eqb t (str "email") = true -> eqb t (str "tel") = false).
  { intros t H. apply eqb_eq in H. now subst t. }
  destruct (truthy (trim v)) eqn:Ev.
  - rewrite andb_true_r, andb_false_r. cbn [negb].
    destruct c as [t|m|].
    + cbn [type tagName]. change (eqb (str "INPUT") (str "SELECT")) with false.
      cbn [andb]. destruct (eqb t (str "email")) eqn:E1.
      * rewrite (Hex t E1). now destruct (test emailRegex (trim v)).
      * destruct (eqb t (str "tel")); [now destruct (test phoneRegex (trim v))|].
        reflexivity.
    + destruct (Hsel m) as [-> ->]. cbn [tagName].
      change (eqb (str "SELECT") (str "SELECT")) with true. cbn [andb].
      apply truthy_false in Ev || idtac.
      destruct rq; cbn [fst negb]; [|reflexivity].
      destruct (trim v); [discriminate | reflexivity].
    + cbn [type tagName].
      change (eqb (str "textarea") (str "email")) with false.
      change (eqb (str "textarea") (str "tel")) with false.
      change (eqb (str "TEXTAREA") (str "SELECT")) with false. reflexivity.
  - rewrite !andb_false_r, andb_true_r. cbn [negb].
    apply truthy_false in Ev. rewrite Ev.
    change (eqb (@nil char) []) with true. cbn [negb].
    destruct (eqb (tagName c) (str "SELECT")); cbn [andb];
      destruct rq; reflexivity.
Qed.

(** X4. The verdict of validateField on any control: an empty value
    (after trimming) passes exactly when the field is not required; a
    value that is not empty passes unless the field is of type email and
    the value is not of the form local@domain.tld, or of type tel and
    the value is not of the shape (DD) DDDDD-DDDD. A select, a textarea
    and any other input are judged on emptiness alone. *)
Theorem validateField_verdict f :
  passes f <->
    (trim (value f) = [] -> required f = false)
    /\ (trim (value f) <> [] -> type (control_ f) = str "email" ->
        simpleEmail (trim (value f)))
    /\ (trim (value f) <> [] -> type (control_ f) = str "tel" ->
        fullShape (trim (value f))).
Proof.
  unfold passes. rewrite validateField_fst.
  destruct (truthy (trim (value f))) eqn:Ev.
  - assert (Hne : trim (value f) <> [])
      by (intros E; rewrite E in Ev; discriminate).
    destruct (eqb (type (control_ f)) (str "email")) eqn:E1.
    + apply eqb_eq in E1. rewrite emailRegex_simpleEmail. split.
      * intros H. split; [congruence|]. split; [auto|].
        intros _ E2. rewrite E1 in E2. vm_compute in E2. discriminate.
      * intros (_ & H & _). auto.
    + destruct (eqb (type (control_ f)) (str "tel")) eqn:E2.
      * apply eqb_eq in E2. split.
        -- intros H. split; [congruence|]. split.
           ++ intros _ E. rewrite E, eqb_refl in E1. discriminate.
           ++ intros _ _. now apply phoneRegex_shape.
        -- intros (_ & _ & H). apply fullShape_phoneRegex. auto.
      * split; [|reflexivity]. intros _. split; [congruence|]. split.
        -- intros _ E. rewrite E, eqb_refl in E1. discriminate.
        -- intros _ E. rewrite E, eqb_refl in E2. discriminate.
  - apply truthy_false in Ev. rewrite negb_true_iff. split.
    + intros H. split; [auto|]. split; intros Hne; congruence.
    + intros (H & _). auto.
Qed.

(** The masked value has no whitespace at either end. *)
Lemma last_app_nonempty (a b : jsstring) d : b <> [] -> last (a ++ b) d = last b d.
Proof.
  intros Hb. destruct (exists_last Hb) as (l & x & ->).
  now rewrite app_assoc, !last_last.
Qed.

Lemma digit_not_space c : isDigit c = true -> isSpace c = false.
Proof.
  unfold isDigit, isSpace, isWhiteSpaceOnly, isLineTerminator.
  intros H. apply andb_true_iff in H as [H1 H2].
  apply N.leb_le in H1, H2.
  repeat match goal with
         | |- context [(c =? ?k)%N] =>
             replace (c =? k)%N with false by (symmetry; apply N.eqb_neq; lia)
         end.
  replace (8192 <=? c)%N with false by (symmetry; apply N.leb_gt; lia).
  reflexivity.
Qed.

Lemma digitsOf_dropWhile s : digitsOf (dropWhile isSpace s) = digitsOf s.
Proof.
  induction s as [|x s IH]; [reflexivity|]. cbn [dropWhile].
  destruct (isSpace x) eqn:Ex; [|reflexivity].
  unfold digitsOf at 2. cbn [List.filter].
  destruct (isDigit x) eqn:Dx;
    [apply digit_not_space in Dx; congruence | exact IH].
Qed.

(** Trimming takes no digit away. *)
Lemma digitsOf_trim s : digitsOf (trim s) = digitsOf s.
Proof.
  unfold trim, trimEnd, trimStart.
  assert (R : forall l, digitsOf (rev l) = rev (digitsOf l))
    by (intros l; apply List.filter_rev).
  now rewrite R, digitsOf_dropWhile, R, rev_involutive, digitsOf_dropWhile.
Qed.

Lemma last_digit v d : allDigits v -> v <> [] -> isDigit (last v d) = true.
Proof.
  intros Hd Hne. unfold allDigits in Hd. rewrite forallb_forall in Hd.
  apply Hd. destruct (exists_last Hne) as (l & x & ->).
  rewrite last_last. apply in_or_app. right. now left.
Qed.

Lemma trim_layoutOf v : allDigits v -> trim (layoutOf v) = layoutOf v.
Proof.
  intros Hd. destruct v as [|x v']; [reflexivity|].
  set (v := x :: v') in *.
  assert (Hne : v <> []) by discriminate.
  assert (Hx : isSpace x = false).
  { apply digit_not_space. unfold allDigits in Hd. cbn in Hd.
    now apply andb_true_iff in Hd as [-> _]. }
  assert (Hlast : forall s, s <> [] -> allDigits s -> isSpace (last s 0%N) = false)
    by (intros s Hs Ds; now apply digit_not_space, last_digit).
  apply trim_untouched.
  - intros E. exact (Hne (proj1 (layoutOf_empty v) E)).
  - unfold layoutOf. destruct (length v =? 11); [reflexivity|].
    destruct (6 <? length v); [exact Hx|].
    destruct (2 <? length v); [reflexivity|].
    destruct (0 <? length v); [reflexivity|]. reflexivity.
  - unfold layoutOf. destruct (length v =? 11) eqn:E11.
    + apply Nat.eqb_eq in E11.
      assert (Hs : skipn 7 v <> []).
      { intros E. apply (f_equal (@length _)) in E.
        rewrite length_skipn in E. cbn [length] in E. lia. }
      rewrite !app_assoc. rewrite last_app_nonempty by exact Hs.
      apply Hlast; [exact Hs | now apply allDigits_skipn].
    + destruct (6 <? length v); [now apply Hlast|].
      destruct (2 <? length v) eqn:E2.
      * apply Nat.ltb_lt in E2.
        assert (Hs : skipn 2 v <> []).
        { intros E. apply (f_equal (@length _)) in E.
          rewrite length_skipn in E. cbn [length] in E. lia. }
        rewrite !app_assoc. rewrite last_app_nonempty by exact Hs.
        apply Hlast; [exact Hs | now apply allDigits_skipn].
      * destruct (0 <? length v); [|reflexivity].
        rewrite last_app_nonempty by exact Hne. now apply Hlast.
Qed.

Lemma trim_maskPhone raw : trim (maskPhone raw) = maskPhone raw.
Proof.
  rewrite maskPhone_layout.
  apply trim_layoutOf, allDigits_firstn, allDigits_digitsOf.
Qed.

Lemma fullShape_layoutOf v :
  allDigits v -> length v <= 11 -> (fullShape (layoutOf v) <-> length v = 11).
Proof.
  intros Hd Hl. split.
  - intros H. apply fullShape_length in H. rewrite layoutOf_length in H.
    destruct (length v =? 11) eqn:E; [now apply Nat.eqb_eq in E|].
    destruct (6 <? length v); [lia|].
    destruct (2 <? length v) eqn:E2; [apply Nat.ltb_ge in E2 || idtac; lia|].
    destruct (0 <? length v); lia.
  - intros E. unfold layoutOf. rewrite E. cbn [Nat.eqb].
    exists (firstn 2 v), (firstn 5 (skipn 2 v)), (skipn 7 v).
    repeat split.
    + now apply allDigits_firstn.
    + rewrite length_firstn. lia.
    + now apply allDigits_firstn, allDigits_skipn.
    + rewrite length_firstn, length_skipn. lia.
    + now apply allDigits_skipn.
    + rewrite length_skipn. lia.
Qed.

Lemma passes_tel rq v dv ge :
  passes (Field (Input (str "tel")) rq v dv ge)
  <-> (if truthy (trim v) then test phoneRegex (trim v) = true else rq = false).
Proof.
  unfold passes. rewrite validateField_fst. cbn [control_ value required type].
  change (eqb (str "tel") (str "email")) with false.
  change (eqb (str "tel") (str "tel")) with true.
  destruct (truthy (trim v)); [reflexivity|]. apply negb_true_iff.
Qed.

(** X5. The mask and the validator together, on a phone field: once
    the mask has run, the field passes validation exactly when the raw
    value held eleven digits or more, or held none and the field is not
    required. *)
Theorem masked_phone_passes rq raw dv ge :
  passes (FormEvents.onMask (Field (Input (str "tel")) rq raw dv ge))
  <-> 11 <= length (digitsOf raw) \/ (digitsOf raw = [] /\ rq = false).
Proof.
  unfold FormEvents.onMask, setValue.
  cbn [control_ required value defaultValue groupError].
  rewrite passes_tel, trim_maskPhone, maskPhone_layout.
  set (v := firstn 11 (digitsOf raw)).
  assert (Hd : allDigits v) by apply allDigits_firstn, allDigits_digitsOf.
  assert (Hl : length v = Nat.min 11 (length (digitsOf raw)))
    by (subst v; apply length_firstn).
  destruct (truthy (layoutOf v)) eqn:Et.
  - assert (Hne : v <> []).
    { intros E. rewrite E in Et. discriminate. }
    assert (Hn : digitsOf raw <> []).
    { intros E. apply Hne. subst v. now rewrite E. }
    split.
    + intros H. apply phoneRegex_shape in H.
      apply fullShape_layoutOf in H; [|assumption|lia]. left. lia.
    + intros [H|[H _]]; [|congruence].
      apply fullShape_phoneRegex, fullShape_layoutOf; [assumption|lia|lia].
  - apply truthy_false in Et. apply (proj1 (layoutOf_empty v)) in Et.
    assert (Hz : digitsOf raw = []).
    { destruct (digitsOf raw); [reflexivity|]. subst v. discriminate. }
    split; [intros ->; now right|]. intros [H|[_ H]]; [|exact H].
    rewrite Hz in H. cbn in H. lia.
Qed.

(** X6. validateForm judges every input, not only up to the first that
    fails: its verdict is that all pass, and it leaves each group's
    error class set exactly on the inputs that fail, with the values as
    they were. *)
Theorem validateForm_marks_all inputs :
  (fst (validateForm inputs) = true <-> Forall passes inputs)
  /\ length (snd (validateForm inputs)) = length inputs
  /\ forall i f, nth_error inputs i = Some f ->
       exists f', nth_error (snd (validateForm inputs)) i = Some f'
         /\ groupError f' = negb (fst (validateField f))
         /\ value f' = value f
         /\ control_ f' = control_ f /\ required f' = required f.
Proof.
  rewrite validateForm_spec. cbn [fst snd]. split; [|split].
  - rewrite forallb_forall, Forall_forall. reflexivity.
  - apply length_map.
  - intros i f Hi. exists (snd (validateField f)).
    split; [exact (map_nth_error (fun f => snd (validateField f)) i inputs Hi)|].
    split; [apply validateField_flag|].
    split; [apply validateField_keeps|].
    unfold validateField.
    match goal with
    | |- context [if negb ?b then _ else _] => destruct b
    end; split; reflexivity.
Qed.

Lemma validateField_snd f :
  snd (validateField f) = setGroupError (negb (fst (validateField f))) f.
Proof.
  unfold validateField.
  match goal with
  | |- context [if negb ?b then _ else _] => destruct b
  end; reflexivity.
Qed.

(** An input event on a phone input that is one of the form's inputs,
    in one equation. *)
Lemma onPhoneInput_eq raw c rq v dv ge :
  FormEvents.onPhoneInput true raw (Field c rq v dv ge)
  = Field c rq (maskPhone raw) dv
          (ge && negb (fst (validateField (Field c rq raw dv true)))).
Proof.
  unfold FormEvents.onPhoneInput, FormEvents.onInput, FormEvents.onMask.
  cbn [setValue control_ required value defaultValue groupError].
  destruct ge; [|reflexivity].
  rewrite validateField_snd. reflexivity.
Qed.

(** X7. An input event on the phone input, the field being one of the
    form's inputs. A field not in error stays so whatever is typed. A
    field in error is judged on the raw value, before the mask rewrites
    it: when the raw value holds eleven digits or more without being of
    the full shape itself, the field ends up showing a number of the
    full shape and still bearing the error class, which the next blur
    removes. *)
Theorem phone_input_flag raw f :
  control_ f = Input (str "tel") ->
  let f' := FormEvents.onPhoneInput true raw f in
  value f' = maskPhone raw
  /\ (groupError f = false -> groupError f' = false)
  /\ (groupError f = true -> 11 <= length (digitsOf raw) ->
      ~ fullShape (trim raw) ->
      fullShape (value f') /\ groupError f' = true
      /\ groupError (FormEvents.onBlur f') = false).
Proof.
  intros Hc f'. subst f'. destruct f as [c rq v dv ge].
  cbn [control_ groupError] in *. subst c.
  rewrite onPhoneInput_eq. cbn [value groupError].
  split; [reflexivity|]. split; [now intros ->|].
  intros -> Hl Hn. cbn [andb].
  assert (Hraw : trim raw <> []).
  { intros E. pose proof (digitsOf_trim raw) as D. rewrite E in D.
    rewrite <- D in Hl. cbn in Hl. lia. }
  assert (Hfail : fst (validateField (Field (Input (str "tel")) rq raw dv true))
                  = false).
  { apply not_true_is_false. intros H.
    apply passes_tel in H. rewrite (truthy_nonempty _ Hraw) in H.
    now apply phoneRegex_shape in H. }
  assert (Hshape : fullShape (maskPhone raw)).
  { rewrite maskPhone_layout. apply fullShape_layoutOf.
    - apply allDigits_firstn, allDigits_digitsOf.
    - rewrite length_firstn. lia.
    - rewrite length_firstn. lia. }
  rewrite Hfail. cbn [negb].
  split; [exact Hshape|]. split; [reflexivity|].
  unfold FormEvents.onBlur. rewrite validateField_flag.
  apply negb_false_iff.
  match goal with |- fst (validateField ?g) = true => change (passes g) end.
  apply passes_tel. rewrite trim_maskPhone, truthy_nonempty.
  - now apply fullShape_phoneRegex.
  - intros E0. apply fullShape_length in Hshape. rewrite E0 in Hshape.
    discriminate.
Qed.

Lemma phone_input_flag_witness :
  let f := Field (Input (str "tel")) true (str "1198765432") [] true in
  let f' := FormEvents.onPhoneInput true (str "11987654321") f in
  value f' = str "(11) 98765-4321" /\ groupError f' = true
  /\ groupError (FormEvents.onBlur f') = false.
Proof.
  intros f f'.
  destruct (phone_input_flag (str "11987654321") f eq_refl) as (Hv & _ & H).
  split; [exact Hv|].
  destruct H as (_ & H1 & H2).
  - reflexivity.
  - vm_compute. lia.
  - intros Hs. apply fullShape_length in Hs. vm_compute in Hs. discriminate.
  - split; [exact H1 | exact H2].
Defined.

(* ================================================================== *)
(** * Typing into the phone input *)

Lemma firstn_app_full (a : jsstring) c n :
  firstn n (firstn n a ++ c) = firstn n (a ++ c).
Proof.
  destruct (Nat.le_gt_cases n (length a)) as [H|H].
  - rewrite !firstn_app. rewrite firstn_firstn, Nat.min_id.
    rewrite length_firstn, Nat.min_l by exact H.
    replace (n - length a) with 0 by lia.
    replace (n - n) with 0 by lia. reflexivity.
  - rewrite (firstn_all2 a) by lia. reflexivity.
Qed.

(** X8. Typing into the masked phone input, one character after the
    other at the end of the value, the mask running after each: the
    field shows what the mask makes of everything typed, taken at
    once. *)
Theorem maskPhone_typing typed :
  fold_left (fun shown c => maskPhone (shown ++ [c])) typed [] = maskPhone typed.
Proof.
  induction typed as [|c typed IH] using rev_ind; [reflexivity|].
  rewrite fold_left_app. cbn [fold_left]. rewrite IH.
  rewrite (maskPhone_layout (maskPhone typed ++ [c])), (maskPhone_layout (typed ++ [c])).
  rewrite !digitsOf_app, digitsOf_maskPhone. now rewrite firstn_app_full.
Qed.

(* ================================================================== *)
(** * Validation as the user goes *)

Lemma validateField_again f :
  validateField (snd (validateField f)) = validateField f.
Proof.
  rewrite validateField_snd. destruct f as [c rq v dv ge]. reflexivity.
Qed.

(** X9. The blur and input listeners of a field. Blur leaves the
    error class exactly on a field that fails, whatever the class was
    before; blur again, or an input event that changes nothing, leaves
    the field as the first blur did; and an input event never puts the
    class on a field that does not bear it, whatever the field holds. *)
Theorem field_listeners f :
  groupError (FormEvents.onBlur f) = negb (fst (validateField f))
  /\ (forall b, FormEvents.onBlur (setGroupError b f) = FormEvents.onBlur f)
  /\ FormEvents.onBlur (FormEvents.onBlur f) = FormEvents.onBlur f
  /\ FormEvents.onInput (FormEvents.onBlur f) = FormEvents.onBlur f
  /\ (forall v, groupError f = false ->
        FormEvents.onInput (setValue v f) = setValue v f)
  /\ (forall v, groupError f = true ->
        FormEvents.onInput (setValue v f) = FormEvents.onBlur (setValue v f)).
Proof.
  unfold FormEvents.onBlur, FormEvents.onInput.
  split; [apply validateField_flag|].
  split; [intros b; now destruct f|].
  split; [now rewrite validateField_again|].
  split.
  - destruct (groupError (snd (validateField f))); [|reflexivity].
    now rewrite validateField_again.
  - split; intros v Hg; destruct f as [c rq v0 dv ge]; cbn [groupError] in Hg;
      subst ge; reflexivity.
Qed.

(* ================================================================== *)
(** * A second submission *)

(** Of two pending timers the one due strictly earlier runs first,
    in whatever order they were set. *)
Lemma runUntil_second_first fuel t w d1 c1 d2 c2 :
  timers w = [(d1, c1); (d2, c2)] -> (d2 < d1)%N -> (d2 <= t)%N ->
  runUntil (S fuel) t w
  = runUntil fuel t (fire c2 (setClock (N.max (now w) d2) [(d1, c1)] w)).
Proof.
  intros H Hlt Ht. apply N.ltb_lt in Hlt. apply N.leb_le in Ht.
  cbn [runUntil]. rewrite H. cbn [popEarliest fst]. rewrite Hlt. now rewrite Ht.
Qed.

Lemma runUntil_first_first fuel t w d1 c1 d2 c2 :
  timers w = [(d1, c1); (d2, c2)] -> (d1 <= d2)%N -> (d1 <= t)%N ->
  runUntil (S fuel) t w
  = runUntil fuel t (fire c1 (setClock (N.max (now w) d1) [(d2, c2)] w)).
Proof.
  intros H Hle Ht. apply N.ltb_ge in Hle. apply N.leb_le in Ht.
  cbn [runUntil]. rewrite H. cbn [popEarliest fst]. rewrite Hle. now rewrite Ht.
Qed.

(** X10. A form submitted again while the success message of an earlier
    submission is still due to be hidden: the timer of the earlier
    submission is never cancelled, so when it falls due after the new
    message has appeared, it hides the new message before its own five
    seconds are over. *)
Theorem resubmit_hides_early v d :
  (forall f, In f (inputs v) -> passes f) ->
  timers v = [(d, HideFeedback)] ->
  (now v + 2000 < d < now v + 7000)%N ->
  forall fuel, 2 <= fuel ->
    (forall t, (now v + 2000 <= t < d)%N ->
       exists w, runUntil fuel t (handleSubmit v) = Some w
         /\ feedbackDisplay w = str "block" /\ successDisplay w = str "flex")
    /\ (forall t, (d <= t < now v + 7000)%N ->
       exists w, runUntil fuel t (handleSubmit v) = Some w
         /\ feedbackDisplay w = str "none" /\ successDisplay w = str "none"
         /\ timers w = [((now v + 7000)%N, HideFeedback)]).
Proof.
  intros Hp Ht Hd fuel Hf.
  rewrite (handleSubmit_passes v Hp), Ht. cbn [app].
  destruct fuel as [|[|fuel]]; [lia..|]. clear Hf.
  set (label := innerHTML (submitBtn v)).
  assert (Hmax : N.max (now v) (now v + 2000) = (now v + 2000)%N) by lia.
  assert (Hsum : (now v + 2000 + 5000 = now v + 7000)%N) by lia.
  split.
  - intros t Ht'.
    rewrite (runUntil_second_first _ t _ d HideFeedback (now v + 2000)%N
               (SubmitDone label)); [ | reflexivity | lia | lia ].
    cbn [fire setClock setTimeout inputs submitBtn feedbackDisplay
         successDisplay focused defaultPrevented scrolled now timers app].
    rewrite Hmax, Hsum.
    assert (E : popEarliest [(d, HideFeedback); ((now v + 7000)%N, HideFeedback)]
                = Some ((d, HideFeedback), [((now v + 7000)%N, HideFeedback)])).
    { cbn [popEarliest fst].
      replace (now v + 7000 <? d)%N with false
        by (symmetry; apply N.ltb_ge; lia). reflexivity. }
    cbn [runUntil timers]. rewrite E.
    replace (d <=? t)%N with false by (symmetry; apply N.leb_gt; lia).
    eexists. split; [reflexivity|]. split; reflexivity.
  - intros t Ht'.
    rewrite (runUntil_second_first _ t _ d HideFeedback (now v + 2000)%N
               (SubmitDone label)); [ | reflexivity | lia | lia ].
    cbn [fire setClock setTimeout inputs submitBtn feedbackDisplay
         successDisplay focused defaultPrevented scrolled now timers app].
    rewrite Hmax, Hsum.
    rewrite (runUntil_first_first _ t _ d HideFeedback (now v + 7000)%N
               HideFeedback); [ | reflexivity | lia | lia ].
    cbn [fire setClock inputs submitBtn feedbackDisplay
         successDisplay focused defaultPrevented scrolled now timers].
    rewrite (runUntil_wait _ t _ (now v + 7000)%N HideFeedback);
      [ | reflexivity | lia ].
    eexists. split; [reflexivity|]. repeat split.
Qed.

Lemma resubmit_hides_early_witness :
  let w0 := World [Field (Input (str "text")) false (str "Ana") [] false;
                   Field (Input (str "tel")) false (str "(11) 98765-4321") [] false]
                  (Button (str "Enviar") false) (str "none") (str "none")
                  None false 0 1000 [] in
  exists v w,
    runUntil 2 4000 (handleSubmit w0) = Some v
    /\ runUntil 2 8500 (handleSubmit v) = Some w
    /\ feedbackDisplay w = str "none" /\ successDisplay w = str "none"
    /\ timers w = [(11000%N, HideFeedback)].
Proof.
  intros w0.
  destruct (runUntil 2 4000 (handleSubmit w0)) as [v|] eqn:E;
    [|vm_compute in E; discriminate].
  assert (Ev : v = World [Field (Input (str "text")) false [] [] false;
                          Field (Input (str "tel")) false [] [] false]
                         (Button (str "Enviar") false) (str "block") (str "flex")
                         None true 1 4000 [(8000%N, HideFeedback)])
    by (assert (Some v = Some
                  (World [Field (Input (str "text")) false [] [] false;
                          Field (Input (str "tel")) false [] [] false]
                         (Button (str "Enviar") false) (str "block") (str "flex")
                         None true 1 4000 [(8000%N, HideFeedback)])) as Es
          by (rewrite <- E; reflexivity); now injection Es).
  exists v.
  destruct (resubmit_hides_early v 8000) with (fuel := 2) as [_ H].
  - rewrite Ev. intros f [<-|[<-|[]]]; reflexivity.
  - now rewrite Ev.
  - rewrite Ev. cbn [now]. lia.
  - lia.
  - destruct (H 8500%N) as (w & Hw & H1 & H2 & H3).
    + rewrite Ev. cbn [now]. lia.
    + exists w. rewrite Ev in H3. cbn [now] in H3.
      repeat split; assumption.
Defined.

(* ================================================================== *)
(** * throttle *)

Lemma sorted_add {A : Type} (R : A -> A -> Prop) l x :
  StronglySorted R l -> Forall (fun c => R c x) l -> StronglySorted R (l ++ [x]).
Proof.
  induction 1 as [|a l Hs IH Ha]; intros Hx; cbn [app].
  - repeat constructor.
  - inversion Hx; subst. constructor; [now apply IH|].
    apply Forall_app. split; [assumption | now constructor].
Qed.

Lemma elapse_ready {A : Type} t (s : Utilities.throttled A) :
  Utilities.resets s = [] -> Utilities.elapse t s = s.
Proof. intros H. unfold Utilities.elapse. now rewrite H. Qed.

Lemma elapse_held {A : Type} t due (s : Utilities.throttled A) :
  Utilities.resets s = [due] ->
  Utilities.elapse t s
  = if (due <=? t)%N then Utilities.Throttled false [] (Utilities.calls s) else s.
Proof.
  intros H. unfold Utilities.elapse. rewrite H. cbn [List.filter].
  now destruct (due <=? t)%N.
Qed.

(** One call: what it does to the calls made, and that the invariant
    goes on. *)
Lemma invoke_step {A : Type} limit t0 t (a : A) s :
  throttleInv limit t0 s -> (t0 <= t)%N ->
  throttleInv limit t (Utilities.invoke limit t a s)
  /\ (Utilities.calls (Utilities.invoke limit t a s) = Utilities.calls s ++ [(t, a)]
      \/ (Utilities.calls (Utilities.invoke limit t a s) = Utilities.calls s
          /\ exists c, In c (Utilities.calls s) /\ (fst c <= t < fst c + limit)%N)).
Proof.
  intros [Hap Hst] Ht.
  assert (Run : forall s', Utilities.inThrottle s' = false ->
            Utilities.resets s' = [] -> Utilities.calls s' = Utilities.calls s ->
            Forall (fun c => (fst c + limit <= t)%N) (Utilities.calls s) ->
            Utilities.elapse t s = s' ->
            throttleInv limit t (Utilities.invoke limit t a s)
            /\ Utilities.calls (Utilities.invoke limit t a s)
               = Utilities.calls s ++ [(t, a)]).
  { intros s' Hi Hr Hc Hall He. unfold Utilities.invoke. rewrite He, Hi, Hr, Hc.
    cbn [app]. split; [|reflexivity]. split.
    - cbn [Utilities.calls]. apply sorted_add; [exact Hap|].
      eapply Forall_impl; [|exact Hall]. cbn. intros c Hc'. exact Hc'.
    - right. cbn [Utilities.inThrottle Utilities.resets Utilities.calls].
      split; [reflexivity|]. exists t, a.
      split; [reflexivity|]. split; [lia|]. split.
      + apply in_or_app. right. now left.
      + apply Forall_app. split.
        * eapply Forall_impl; [|exact Hall]. cbn. intros c Hc'. lia.
        * constructor; [cbn; lia | constructor]. }
  destruct Hst as [(Hi & Hr & Hall)|(Hi & e & a' & Hr & He & Hin & Hle)].
  - destruct (Run s Hi Hr eq_refl) as [H1 H2].
    + eapply Forall_impl; [|exact Hall]. cbn. intros c Hc. lia.
    + now apply elapse_ready.
    + split; [exact H1 | now left].
  - destruct (e + limit <=? t)%N eqn:E.
    + apply N.leb_le in E.
      destruct (Run (Utilities.Throttled false [] (Utilities.calls s)))
        as [H1 H2]; try reflexivity.
      * eapply Forall_impl; [|exact Hle]. cbn. intros c Hc. lia.
      * rewrite (elapse_held t (e + limit)%N s Hr). now rewrite (proj2 (N.leb_le _ _) E).
      * split; [exact H1 | now left].
    + assert (Es : Utilities.invoke limit t a s = s).
      { unfold Utilities.invoke. rewrite (elapse_held t (e + limit)%N s Hr), E.
        now rewrite Hi. }
      rewrite Es. apply N.leb_gt in E. split.
      * split; [exact Hap|]. right. split; [exact Hi|].
        exists e, a'. repeat split; try assumption. lia.
      * right. split; [reflexivity|]. exists (e, a'). cbn [fst].
        split; [exact Hin | lia].
Qed.

Lemma answered_more {A : Type} limit (ran more : list (N * A)) ev :
  answered limit ran ev -> answered limit (ran ++ more) ev.
Proof.
  intros [H|(c & Hc & Ht)]; [left | right; exists c; split; [|exact Ht]];
    apply in_or_app; now left.
Qed.

Lemma invokeAll_run {A : Type} limit (events : list (N * A)) : forall s t0,
  inOrder events -> Forall (fun ev => (t0 <= fst ev)%N) events ->
  throttleInv limit t0 s ->
  exists new,
    Utilities.calls (Utilities.invokeAll limit events s) = Utilities.calls s ++ new
    /\ new `sublist_of` events
    /\ apart limit (Utilities.calls s ++ new)
    /\ Forall (answered limit (Utilities.calls s ++ new)) events
    /\ exists t1, throttleInv limit t1 (Utilities.invokeAll limit events s).
Proof.
  induction events as [|[t a] events IH]; intros s t0 Hord Hfrom Hinv.
  - exists []. rewrite app_nil_r. cbn [Utilities.invokeAll fold_left].
    split; [reflexivity|]. split; [constructor|]. split; [apply Hinv|].
    split; [constructor | now exists t0].
  - inversion Hord as [|? ? Hord' Hnext]; subst.
    inversion Hfrom as [|? ? Ht Hfrom']; subst. cbn [fst] in Ht.
    destruct (invoke_step limit t0 t a s Hinv Ht) as [Hinv' Hcalls].
    cbn [Utilities.invokeAll fold_left fst snd].
    fold (Utilities.invokeAll limit events (Utilities.invoke limit t a s)).
    destruct (IH (Utilities.invoke limit t a s) t Hord' Hnext Hinv')
      as (new & Hn & Hsub & Hap & Hans & Hend).
    destruct Hcalls as [Hc|(Hc & c & Hin & Hwin)]; rewrite Hc in *.
    + exists ((t, a) :: new). rewrite <- app_assoc in Hn, Hap, Hans. cbn [app] in *.
      split; [exact Hn|]. split; [now apply sublist_skip|]. split; [exact Hap|].
      split; [|exact Hend].
      constructor; [|exact Hans]. left. apply in_or_app. right. now left.
    + exists new. split; [exact Hn|]. split; [now apply sublist_cons|].
      split; [exact Hap|]. split; [|exact Hend]. constructor; [|exact Hans].
      right. exists c. split; [apply in_or_app; now left | exact Hwin].
Qed.

Lemma throttle_starts {A : Type} limit : throttleInv limit 0 (Utilities.throttle A).
Proof.
  split; [constructor|]. left. repeat split; constructor.
Qed.

(** The calls a throttled function lets through, from its first call
    on. *)
Lemma throttle_run (A : Type) (limit : N) (events : list (N * A)) :
  inOrder events ->
  let ran := Utilities.calls
               (Utilities.invokeAll limit events (Utilities.throttle A)) in
  apart limit ran
  /\ ran `sublist_of` events
  /\ hd_error ran = hd_error events
  /\ Forall (answered limit ran) events.
Proof.
  intros Hord ran. subst ran. destruct events as [|[t a] events].
  - cbn. repeat split; constructor.
  - inversion Hord as [|? ? Hord' Hnext]; subst.
    cbn [Utilities.invokeAll fold_left fst snd].
    fold (Utilities.invokeAll limit events
            (Utilities.invoke limit t a (Utilities.throttle A))).
    destruct (invoke_step limit 0%N t a (Utilities.throttle A)
                (throttle_starts limit) (N.le_0_l t)) as [Hinv _].
    destruct (invokeAll_run limit events _ t Hord' Hnext Hinv)
      as (new & Hn & Hsub & Hap & Hans & _).
    rewrite Hn. clear Hn Hinv.
    change (Utilities.calls (Utilities.invoke limit t a (Utilities.throttle A)))
      with [(t, a)] in *.
    cbn [app] in *. split; [exact Hap|]. split; [now apply sublist_skip|].
    split; [reflexivity|]. constructor; [left; now left | exact Hans].
Qed.


(** X11. A function made by throttle, called at the times of [events]:
    the calls it lets through are [limit] apart or more; they are among
    the calls received, in their order, the first of them the very first
    call; a call not let through came less than [limit] after one that
    was; and at the end at most one reset timer is pending, the
    function being held exactly when one is. *)
Theorem throttle_spacing (A : Type) (limit : N) (events : list (N * A)) :
  inOrder events ->
  let s := Utilities.invokeAll limit events (Utilities.throttle A) in
  apart limit (Utilities.calls s)
  /\ Utilities.calls s `sublist_of` events
  /\ hd_error (Utilities.calls s) = hd_error events
  /\ Forall (answered limit (Utilities.calls s)) events
  /\ length (Utilities.resets s) <= 1
  /\ (Utilities.inThrottle s = true <-> Utilities.resets s <> []).
Proof.
  intros Hord s. subst s.
  destruct (throttle_run A limit events Hord) as (H1 & H2 & H3 & H4).
  split; [exact H1|]. split; [exact H2|]. split; [exact H3|].
  split; [exact H4|].
  destruct (invokeAll_run limit events (Utilities.throttle A) 0%N Hord)
    as (_ & _ & _ & _ & _ & t1 & _ & Hst).
  - apply Forall_forall. intros ev _. lia.
  - apply throttle_starts.
  - destruct Hst as [(-> & -> & _)|(-> & e & a & -> & _)].
    + split; [cbn; lia|]. split; [discriminate | congruence].
    + split; [cbn; lia|]. split; [discriminate | reflexivity].
Qed.

Lemma throttle_spacing_witness :
  Utilities.calls
    (Utilities.invokeAll 100
       [(0, 1); (50, 2); (100, 3); (120, 4); (250, 5)]%N (Utilities.throttle N))
  = [(0, 1); (100, 3); (250, 5)]%N
  /\ apart 100 [(0, 1); (100, 3); (250, 5)]%N.
Proof.
  split; [reflexivity|].
  refine (proj1 (throttle_spacing N 100
                   [(0, 1); (50, 2); (100, 3); (120, 4); (250, 5)]%N _)).
  repeat (constructor; [|repeat (constructor; [cbn; lia|]); constructor]).
  constructor.
Defined.

(* ================================================================== *)
(** * Navigation: scrolling *)

Lemma sorted_last {A : Type} (R : A -> A -> Prop) l x :
  StronglySorted R (l ++ [x]) -> Forall (fun c => R c x) l.
Proof.
  induction l as [|a l IH]; intros H; [constructor|].
  cbn [app] in H. inversion H as [|? ? Hs Ha]; subst.
  apply Forall_app in Ha as [_ Ha]. inversion Ha; subst.
  constructor; [assumption | now apply IH].
Qed.




(* ================================================================== *)
(** * debounce *)

Lemma elapseD_idle {A : Type} t (s : Utilities.debounced A) :
  Utilities.waiting s = [] -> Utilities.elapseD t s = s.
Proof. intros H. unfold Utilities.elapseD. now rewrite H. Qed.

Lemma elapseD_waiting {A : Type} wait t ev (s : Utilities.debounced A) :
  waitingFor wait ev s ->
  Utilities.elapseD t s
  = if (fst ev + wait <=? t)%N
    then Utilities.Debounced (Utilities.timeout s) (Utilities.nextHandle s) []
           (Utilities.made s ++ [((fst ev + wait)%N, snd ev)])
    else s.
Proof.
  intros (h & Ht & Hw). unfold Utilities.elapseD. rewrite Hw.
  cbn [length Utilities.settle]. rewrite Hw. cbn [Utilities.nextTimer].
  destruct (fst ev + wait <=? t)%N; [|reflexivity].
  unfold Utilities.later.
  cbn [Utilities.timeout Utilities.nextHandle Utilities.waiting Utilities.made].
  rewrite Ht. reflexivity.
Qed.

(** A call puts its own timer in the place of whatever was waiting. *)
Lemma invokeD_waiting {A : Type} wait t (a : A) ev s :
  waitingFor wait ev s ->
  waitingFor wait (t, a) (Utilities.invokeD wait t a s)
  /\ Utilities.made (Utilities.invokeD wait t a s)
     = Utilities.made s
       ++ (if (fst ev + wait <=? t)%N then [((fst ev + wait)%N, snd ev)] else []).
Proof.
  intros Hw. unfold Utilities.invokeD. rewrite (elapseD_waiting wait t ev s Hw).
  destruct Hw as (h & Ht & Hw).
  destruct (fst ev + wait <=? t)%N.
  - cbn [Utilities.timeout Utilities.nextHandle Utilities.waiting Utilities.made].
    rewrite Ht. cbn [Utilities.clearTimeout List.filter app].
    split; [|reflexivity]. eexists. split; reflexivity.
  - rewrite Ht, Hw. cbn [Utilities.clearTimeout List.filter fst].
    rewrite Nat.eqb_refl. cbn [negb app]. rewrite app_nil_r.
    split; [|reflexivity]. eexists. cbn [Utilities.timeout Utilities.waiting].
    split; reflexivity.
Qed.

Lemma invokeD_first {A : Type} wait t (a : A) :
  waitingFor wait (t, a) (Utilities.invokeD wait t a (Utilities.debounce A))
  /\ Utilities.made (Utilities.invokeD wait t a (Utilities.debounce A)) = [].
Proof. split; [eexists; split; reflexivity | reflexivity]. Qed.

Lemma unfollowed_next {A : Type} wait (ev e : N * A) events :
  unfollowed wait (ev :: e :: events)
  = if (fst ev + wait <=? fst e)%N
    then ((fst ev + wait)%N, snd ev) :: unfollowed wait (e :: events)
    else unfollowed wait (e :: events).
Proof. reflexivity. Qed.

(** From a call waiting on: the calls of [func] still to come. *)
Lemma invokeAllD_run {A : Type} wait u (events : list (N * A)) : forall ev s,
  waitingFor wait ev s ->
  Forall (fun e => (fst e + wait <= u)%N) (ev :: events) ->
  Utilities.made (Utilities.elapseD u (Utilities.invokeAllD wait events s))
    = Utilities.made s ++ unfollowed wait (ev :: events)
  /\ Utilities.waiting (Utilities.elapseD u (Utilities.invokeAllD wait events s)) = [].
Proof.
  induction events as [|[t a] events IH]; intros ev s Hw Hu.
  - cbn [Utilities.invokeAllD fold_left unfollowed].
    rewrite (elapseD_waiting wait u ev s Hw).
    inversion Hu; subst.
    rewrite (proj2 (N.leb_le _ _)) by assumption. now split.
  - inversion Hu as [|? ? _ Hu']; subst.
    cbn [Utilities.invokeAllD fold_left fst snd].
    fold (Utilities.invokeAllD wait events (Utilities.invokeD wait t a s)).
    destruct (invokeD_waiting wait t a ev s Hw) as [Hw' Hm].
    destruct (IH (t, a) _ Hw' Hu') as [-> ->]. split; [|reflexivity].
    rewrite Hm, <- app_assoc. f_equal.
    rewrite (unfollowed_next wait ev (t, a) events). cbn [fst].
    now destruct (fst ev + wait <=? t)%N.
Qed.

Lemma last_default {A : Type} (l : list A) : forall p d d',
  last (p :: l) d = last (p :: l) d'.
Proof.
  induction l as [|q l IH]; intros p d d'; [reflexivity|].
  change (last (q :: l) d = last (q :: l) d'). apply IH.
Qed.

Lemma unfollowed_burst {A : Type} wait (events : list (N * A)) : forall ev,
  burst wait (ev :: events) ->
  unfollowed wait (ev :: events)
  = [((fst (last events ev) + wait)%N, snd (last events ev))].
Proof.
  induction events as [|e events IH]; intros ev Hb; [reflexivity|].
  destruct Hb as [Hlt Hb]. rewrite unfollowed_next.
  replace (fst ev + wait <=? fst e)%N with false
    by (symmetry; apply N.leb_gt; exact Hlt).
  rewrite (IH e Hb). destruct events as [|p events]; [reflexivity|].
  change (last (e :: p :: events) ev) with (last (p :: events) ev).
  now rewrite (last_default events p e ev).
Qed.

Lemma unfollowed_apart {A : Type} wait (events : list (N * A)) :
  apart wait events ->
  unfollowed wait events = map (fun e => ((fst e + wait)%N, snd e)) events.
Proof.
  induction 1 as [|e events Hs IH Hall]; [reflexivity|].
  destruct events as [|e' events]; [reflexivity|].
  rewrite unfollowed_next. inversion Hall; subst.
  rewrite (proj2 (N.leb_le _ _)) by assumption. now rewrite IH.
Qed.

(** X13. A function made by debounce, called at the times of [events],
    once [wait] has passed since the last call: [func] was called once
    for each call that no other call followed within [wait], at [wait]
    after that call and with its arguments, and for no other; no timer
    is left. In particular calls that are [wait] apart or more are all
    passed on. *)
Theorem debounce_passes_unfollowed (A : Type) (wait u : N) (events : list (N * A)) :
  Forall (fun e => (fst e + wait <= u)%N) events ->
  let s := Utilities.elapseD u
             (Utilities.invokeAllD wait events (Utilities.debounce A)) in
  Utilities.made s = unfollowed wait events
  /\ Utilities.waiting s = []
  /\ (apart wait events ->
      Utilities.made s = map (fun e => ((fst e + wait)%N, snd e)) events).
Proof.
  intros Hu s.
  assert (H : Utilities.made s = unfollowed wait events /\ Utilities.waiting s = []).
  { subst s. destruct events as [|[t a] events]; [now split|].
    cbn [Utilities.invokeAllD fold_left fst snd].
    fold (Utilities.invokeAllD wait events
            (Utilities.invokeD wait t a (Utilities.debounce A))).
    destruct (invokeD_first wait t a) as [Hw Hm].
    destruct (invokeAllD_run wait u events (t, a) _ Hw Hu) as [-> ->].
    now rewrite Hm. }
  destruct H as [H1 H2]. split; [exact H1|]. split; [exact H2|].
  intros Hap. rewrite H1. now apply unfollowed_apart.
Qed.

Lemma debounce_passes_unfollowed_witness :
  Utilities.made
    (Utilities.elapseD 2000
       (Utilities.invokeAllD 250 [(0, 1); (100, 2); (340, 3); (1000, 4)]%N
          (Utilities.debounce N)))
  = [(590, 3); (1250, 4)]%N.
Proof.
  refine (proj1 (debounce_passes_unfollowed N 250 2000
                   [(0, 1); (100, 2); (340, 3); (1000, 4)]%N _)).
  repeat (constructor; [cbn; lia|]). constructor.
Defined.

(** X14. A burst of calls to a debounced function, each less than
    [wait] after the one before: [func] is called once, with the
    arguments of the last call of the burst, [wait] after it. *)
Theorem debounce_burst (A : Type) (wait u : N) (ev : N * A) (events : list (N * A)) :
  burst wait (ev :: events) ->
  Forall (fun e => (fst e + wait <= u)%N) (ev :: events) ->
  Utilities.made
    (Utilities.elapseD u
       (Utilities.invokeAllD wait (ev :: events) (Utilities.debounce A)))
  = [((fst (last events ev) + wait)%N, snd (last events ev))].
Proof.
  intros Hb Hu. destruct ev as [t a].
  cbn [Utilities.invokeAllD fold_left fst snd].
  fold (Utilities.invokeAllD wait events
          (Utilities.invokeD wait t a (Utilities.debounce A))).
  destruct (invokeD_first wait t a) as [Hw Hm].
  destruct (invokeAllD_run wait u events (t, a) _ Hw Hu) as [-> _].
  rewrite Hm. cbn [app]. now apply unfollowed_burst.
Qed.

Lemma debounce_burst_witness :
  Utilities.made
    (Utilities.elapseD 1000
       (Utilities.invokeAllD 250 [(0, 1); (100, 2); (300, 3)]%N
          (Utilities.debounce N)))
  = [(550, 3)]%N.
Proof.
  apply (debounce_burst N 250 1000 (0, 1)%N [(100, 2); (300, 3)]%N).
  - cbn. lia.
  - repeat (constructor; [cbn; lia|]). constructor.
Defined.

(* ================================================================== *)
(** * window.announce *)

Lemma filter_none {A : Type} (p : A -> bool) l :
  List.filter p l = [] -> List.filter (fun x => negb (p x)) l = l.
Proof.
  induction l as [|x l IH]; [reflexivity|]. cbn [List.filter].
  destruct (p x); [discriminate|]. intros H. cbn [negb]. f_equal. now apply IH.
Qed.

Lemma elapseL_clears t s :
  Utilities.clears (Utilities.elapseL t s)
  = List.filter (fun due => negb (due <=? t)%N) (Utilities.clears s).
Proof.
  unfold Utilities.elapseL.
  destruct (List.filter (fun due => (due <=? t)%N) (Utilities.clears s)) eqn:E;
    [|reflexivity].
  symmetry. now apply filter_none.
Qed.

Lemma elapseL_text t s :
  Utilities.textContent (Utilities.elapseL t s)
  = if existsb (fun due => (due <=? t)%N) (Utilities.clears s)
    then [] else Utilities.textContent s.
Proof.
  unfold Utilities.elapseL.
  destruct (List.filter (fun due => (due <=? t)%N) (Utilities.clears s)) as [|d r] eqn:E.
  - replace (existsb _ _) with false; [reflexivity|].
    symmetry. apply not_true_is_false. intros H.
    apply existsb_exists in H as (x & Hx & Hd).
    assert (Hin : In x (List.filter (fun due => (due <=? t)%N) (Utilities.clears s)))
      by (apply filter_In; now split).
    now rewrite E in Hin.
  - replace (existsb _ _) with true; [reflexivity|].
    symmetry. apply existsb_exists. exists d.
    assert (Hin : In d (List.filter (fun due => (due <=? t)%N) (Utilities.clears s)))
      by (rewrite E; now left).
    now apply filter_In in Hin.
Qed.

Lemma sorted_front {A : Type} (R : A -> A -> Prop) l k :
  StronglySorted R (l ++ k) -> StronglySorted R l.
Proof.
  induction l as [|a l IH]; intros H; [constructor|].
  cbn [app] in H. inversion H as [|? ? Hs Ha]; subst.
  apply Forall_app in Ha as [Ha _]. constructor; [now apply IH | exact Ha].
Qed.

Lemma announceAll_last l a s :
  Utilities.announceAll (l ++ [a]) s
  = Utilities.announce (fst a) (snd a) (Utilities.announceAll l s).
Proof. unfold Utilities.announceAll. now rewrite fold_left_app. Qed.

(** The timers pending after a series of announcements: one for each
    announcement that no later one came 1000 ms or more after. *)
Lemma announceAll_clears txt l :
  inOrder l ->
  forall d,
    In d (Utilities.clears (Utilities.announceAll l (Utilities.Live txt [])))
    <-> (exists a, In a l /\ d = (fst a + 1000)%N)
        /\ Forall (fun b => (fst b < d)%N) l.
Proof.
  induction l as [|x l IH] using rev_ind; intros Hord d.
  - cbn. split; [tauto|]. now intros [(a & [] & _) _].
  - pose proof (sorted_front _ l [x] Hord) as Hl.
    pose proof (sorted_last _ l x Hord) as Hx.
    rewrite announceAll_last. unfold Utilities.announce.
    cbn [Utilities.clears]. rewrite elapseL_clears, in_app_iff, filter_In.
    rewrite (IH Hl d), negb_true_iff, N.leb_gt. cbn [In]. split.
    + intros [[[(a & Ha & ->) Hall] Hlt]|[<-|[]]].
      * split; [exists a; split; [apply in_or_app; now left | reflexivity]|].
        apply Forall_app. split; [exact Hall | now constructor].
      * split; [exists x; split; [apply in_or_app; right; now left | reflexivity]|].
        apply Forall_app. split; [|constructor; [lia | constructor]].
        eapply Forall_impl; [|exact Hx]. cbn. intros b Hb. lia.
    + intros [(a & Ha & ->) Hall]. apply Forall_app in Hall as [Hall Hlast].
      inversion Hlast; subst.
      apply in_app_or in Ha as [Ha|[<-|[]]]; [left | right; now left].
      split; [|assumption]. split; [now exists a | exact Hall].
Qed.

(** X15. window.announce, the timers of earlier announcements being
    never cancelled. The message announced last, at [t], stays in the
    live region for the 1000 ms meant for it when every earlier
    announcement lies 1000 ms or more back; an earlier announcement less
    than 1000 ms back empties the region when its own timer falls due,
    before that; and from 1000 ms after [t] on the region is empty. *)
Theorem announce_cut_short txt l t m u :
  inOrder (l ++ [(t, m)]) -> (t <= u)%N ->
  let shown :=
    Utilities.textContent
      (Utilities.elapseL u
         (Utilities.announceAll (l ++ [(t, m)]) (Utilities.Live txt []))) in
  ((u < t + 1000)%N -> Forall (fun a => (fst a + 1000 <= t)%N) l -> shown = m)
  /\ (forall a, In a l -> (t < fst a + 1000 <= u)%N -> shown = [])
  /\ ((t + 1000 <= u)%N -> shown = []).
Proof.
  intros Hord Hu shown. subst shown.
  rewrite elapseL_text.
  pose proof (announceAll_clears txt (l ++ [(t, m)]) Hord) as Hmem.
  pose proof (sorted_last _ l (t, m) Hord) as Hbefore. cbn [fst] in Hbefore.
  assert (Htext : Utilities.textContent
                    (Utilities.announceAll (l ++ [(t, m)]) (Utilities.Live txt []))
                  = m) by now rewrite announceAll_last.
  rewrite Htext.
  assert (Hdue : forall d, (d <= u)%N ->
            (exists a, In a (l ++ [(t, m)]) /\ d = (fst a + 1000)%N) ->
            (t < d)%N ->
            existsb (fun due => (due <=? u)%N)
              (Utilities.clears
                 (Utilities.announceAll (l ++ [(t, m)]) (Utilities.Live txt [])))
            = true).
  { intros d Hd Hex Ht. apply existsb_exists. exists d.
    split; [|now apply N.leb_le]. apply Hmem. split; [exact Hex|].
    apply Forall_app. split; [|constructor; [exact Ht | constructor]].
    eapply Forall_impl; [|exact Hbefore]. cbn. intros b Hb. lia. }
  split; [|split].
  - intros Hlt Hold.
    replace (existsb _ _) with false; [reflexivity|].
    symmetry. apply not_true_is_false. intros H.
    apply existsb_exists in H as (d & Hd & Hle). apply N.leb_le in Hle.
    apply Hmem in Hd as [(a & Ha & ->) Hall].
    apply Forall_app in Hall as [_ Hall]. inversion Hall; subst. cbn [fst] in *.
    apply in_app_or in Ha as [Ha|[<-|[]]]; [|cbn [fst] in *; lia].
    rewrite Forall_forall in Hold. specialize (Hold a Ha). lia.
  - intros a Ha [Hlt Hle]. rewrite (Hdue (fst a + 1000)%N); try assumption;
      [reflexivity|].
    exists a. split; [apply in_or_app; now left | reflexivity].
  - intros Hle. rewrite (Hdue (t + 1000)%N); [reflexivity | assumption | | lia].
    exists (t, m). split; [apply in_or_app; right; now left | reflexivity].
Qed.

Lemma announce_cut_short_witness :
  Utilities.textContent
    (Utilities.elapseL 1100
       (Utilities.announceAll [(0%N, str "Enviado"); (600%N, str "Erro")]
          (Utilities.Live [] [])))
  = [].
Proof.
  refine (proj1 (proj2 (announce_cut_short [] [(0%N, str "Enviado")] 600
                          (str "Erro") 1100 _ _))
            (0%N, str "Enviado") _ _).
  - repeat constructor. cbn. lia.
  - lia.
  - now left.
  - cbn. lia.
Defined.

(* ================================================================== *)
(** * isInViewport *)

(** X16. isInViewport, for a rectangle whose top is not below its
    bottom and an offset of at most half the viewport's height: the
    test succeeds exactly when some height lies both within the
    rectangle and within the viewport narrowed by the offset at either
    end; rectangles that merely touch the band count. *)
Theorem isInViewport_meets top bottom innerHeight offset :
  (top <= bottom)%Q -> (offset <= innerHeight - offset)%Z ->
  Utilities.isInViewport top bottom innerHeight offset = true
  <-> exists y : Q,
        (top <= y <= bottom)%Q
        /\ (inject_Z offset <= y <= inject_Z (innerHeight - offset))%Q.
Proof.
  intros Hr Hb. unfold Utilities.isInViewport.
  rewrite andb_true_iff, !Qle_bool_iff.
  rewrite Zle_Qle in Hb. split.
  - intros [H1 H2]. destruct (Qlt_le_dec top (inject_Z offset)) as [Hlt|Hge].
    + exists (inject_Z offset). repeat split; try assumption;
        [now apply Qlt_le_weak | apply Qle_refl].
    + exists top. repeat split; try assumption; apply Qle_refl.
  - intros (y & [Hy1 Hy2] & [Hy3 Hy4]). split; eapply Qle_trans; eassumption.
Qed.

Lemma isInViewport_meets_witness :
  Utilities.isInViewport 700 900 768 0 = true
  /\ Utilities.isInViewport 768 900 768 0 = true
  /\ Utilities.isInViewport 769 900 768 0 = false.
Proof.
  split; [|split; reflexivity].
  apply (isInViewport_meets 700 900 768 0).
  - vm_compute. discriminate.
  - lia.
  - exists 700%Q. repeat split; vm_compute; discriminate.
Defined.

(* ================================================================== *)
(** * The observers: one animation for each counter *)

Section OnceFacts.
Import Observers.
Variable counterIn : elem -> option elem.

Lemma animationsOf_started by_ x d :
  animationsOf x (startAnimation by_ x d) = animationsOf x d ++ [(by_, x)].
Proof.
  unfold animationsOf, startAnimation. cbn [animations].
  rewrite List.filter_app. cbn [List.filter snd]. now rewrite Nat.eqb_refl.
Qed.

Lemma startAnimation_once by_ x d :
  animatedOnce d -> x ∉ counted d -> animatedOnce (startAnimation by_ x d).
Proof.
  intros Hd Hx c. destruct (Nat.eq_dec x c) as [<-|Hne].
  - assert (E : animationsOf x d = []).
    { destruct (animationsOf x d) eqn:E; [reflexivity|].
      exfalso. apply Hx. apply (Hd x). now rewrite E. }
    rewrite animationsOf_started, E. cbn [app length]. split; [lia|].
    intros _. cbn [counted startAnimation]. set_solver.
  - rewrite (animationsOf_start by_ c x d Hne).
    destruct (Hd c) as [H1 H2]. split; [exact H1|].
    intros H. specialize (H2 H). cbn [counted startAnimation]. set_solver.
Qed.

Lemma animatedOnce_same d d' :
  counted d' = counted d -> animations d' = animations d ->
  animatedOnce d -> animatedOnce d'.
Proof.
  intros Hc Ha H c. unfold animationsOf. rewrite Hc, Ha. apply H.
Qed.

Lemma onCounterEntry_once e d : animatedOnce d -> animatedOnce (onCounterEntry e d).
Proof.
  intros H. unfold onCounterEntry.
  destruct (isIntersecting e); cbn [andb]; [|exact H].
  destruct (bool_decide (target e ∈ counted d)) eqn:E; cbn [negb]; [exact H|].
  apply bool_decide_eq_false in E.
  eapply animatedOnce_same;
    [| |exact (startAnimation_once ByAnimateValue (target e) d H E)];
    reflexivity.
Qed.

Lemma callbackAC_once es : forall d, animatedOnce d -> animatedOnce (callbackAC es d).
Proof.
  induction es as [|e es IH]; intros d H; [exact H|].
  cbn [callbackAC fold_left]. fold (callbackAC es (onCounterEntry e d)).
  now apply IH, onCounterEntry_once.
Qed.

Lemma revealNow_once x d : animatedOnce d -> animatedOnce (revealNow counterIn x d).
Proof.
  intros H. unfold revealNow.
  match goal with
  | |- context [Dom ?r ?c ?o1 ?o2 ?a ?p] =>
      assert (H' : animatedOnce (Dom r c o1 o2 a p))
        by (eapply animatedOnce_same; [| |exact H]; reflexivity);
      set (d' := Dom r c o1 o2 a p) in *
  end.
  destruct (counterIn x) as [c|]; [|exact H'].
  destruct (decide (c ∈ counted d')) as [Hin|Hout]; [exact H'|].
  now apply startAnimation_once.
Qed.

Lemma exec_once st d : animatedOnce d -> animatedOnce (exec counterIn st d).
Proof.
  intros H. destruct st as [es|es|i]; cbn [exec].
  - destruct (callbackSR_keeps es d) as (Hk & Ha & _).
    eapply animatedOnce_same; [exact Hk | exact Ha | exact H].
  - now apply callbackAC_once.
  - unfold runTimer. destruct (nth_error (pending d) i) as [x|]; [|exact H].
    apply revealNow_once. eapply animatedOnce_same; [| |exact H]; reflexivity.
Qed.

Lemma execAll_once steps : forall d,
  animatedOnce d -> animatedOnce (execAll counterIn steps d).
Proof.
  induction steps as [|st steps IH]; intros d H; [exact H|].
  cbn [execAll fold_left]. fold (execAll counterIn steps (exec counterIn st d)).
  now apply IH, exec_once.
Qed.
End OnceFacts.

(** X17. From a page on which no counter animation has started yet,
    whatever the two observers report and whichever reveal timers run,
    in any order and any number of times, each counter gets at most one
    animation, by whichever of the two routines reaches it first, and a
    counter that has one bears [counted]. *)
Theorem counter_animated_once
    (counterIn : Observers.elem -> option Observers.elem)
    (steps : list Observers.step) (d : Observers.dom) (c : Observers.elem) :
  Observers.animations d = [] ->
  let d' := Observers.execAll counterIn steps d in
  length (Observers.animationsOf c d') <= 1
  /\ (Observers.animationsOf c d' <> [] -> c ∈ Observers.counted d').
Proof.
  intros Hd d'. subst d'. apply execAll_once.
  intros x. unfold Observers.animationsOf. rewrite Hd. cbn [List.filter length].
  split; [lia|]. intros H. now contradiction H.
Qed.

Lemma counter_animated_once_witness :
  let counterIn := fun x => if Nat.eqb x 1 then Some 2 else None in
  let d := Observers.Dom ∅ ∅ {[1]} {[2]} [] [] in
  let steps := [Observers.RevealCallback [Observers.Entry 1 true];
                Observers.CounterCallback [Observers.Entry 2 true;
                                           Observers.Entry 2 true];
                Observers.Timer 0;
                Observers.CounterCallback [Observers.Entry 2 true]] in
  length (Observers.animationsOf 2 (Observers.execAll counterIn steps d)) <= 1.
Proof.
  intros counterIn d steps.
  apply (counter_animated_once counterIn steps d 2). reflexivity.
Defined.

(* ================================================================== *)
(** * Navigation: the listeners *)

(** X18. The menu under the listeners of Navigation.init. A click on
    the toggle flips the menu, the document's click listener leaving it
    alone; a click inside the menu that is on no link changes nothing;
    a closed menu is opened by nothing but a click on the toggle; no
    click or key touches the navbar's scrolled class; and handleScroll
    sets that class by the scroll position alone, leaving the menu as it
    is. *)
Theorem navigation_listeners (n : Navigation.nav) :
  Navigation.dispatch (Navigation.Click Navigation.OnToggle) n
    = Navigation.toggleMenu n
  /\ Navigation.dispatch (Navigation.Click Navigation.InsideMenu) n = n
  /\ (forall e, Navigation.isOpen n = false ->
        e <> Navigation.Click Navigation.OnToggle ->
        Navigation.dispatch e n = n)
  /\ (forall e, Navigation.navbarScrolled (Navigation.dispatch e n)
                = Navigation.navbarScrolled n)
  /\ (forall y,
        Navigation.handleScroll y n
        = Navigation.Nav (Navigation.isOpen n) (Navigation.menuActive n)
            (Navigation.ariaExpanded n) (Navigation.bodyOverflow n)
            (Navigation.navbarScrolled (Navigation.handleScroll y n))
        /\ (Navigation.navbarScrolled (Navigation.handleScroll y n) = true
            <-> (50 < y)%Z)).
Proof.
  split; [|split; [|split; [|split]]].
  - cbn [Navigation.dispatch Navigation.menuContains Navigation.toggleContains].
    cbn [negb andb]. rewrite andb_false_r. reflexivity.
  - cbn [Navigation.dispatch Navigation.menuContains negb andb].
    now rewrite andb_false_r.
  - intros e Hc Hne. destruct e as [[|b| |]|key]; try congruence;
      cbn [Navigation.dispatch]; rewrite ?Hc, ?andb_false_r; reflexivity.
  - intros e. destruct e as [p|key]; cbn [Navigation.dispatch].
    + assert (H : forall m, Navigation.navbarScrolled
                  (if Navigation.isOpen m && negb (Navigation.menuContains p)
                      && negb (Navigation.toggleContains p)
                   then Navigation.closeMenu m else m)
                = Navigation.navbarScrolled m)
        by (intros m; now destruct (_ && _)).
      rewrite H. destruct p; try reflexivity;
        unfold Navigation.toggleMenu; now destruct (Navigation.isOpen n).
    + now destruct (_ && _).
  - intros y. split; [reflexivity|].
    cbn [Navigation.handleScroll Navigation.navbarScrolled].
    destruct (50 <? y)%Z eqn:E.
    + apply Z.ltb_lt in E. tauto.
    + apply Z.ltb_ge in E. split; [discriminate | lia].
Qed.

(* ================================================================== *)
(** * Construction, the navbar being there *)




Lemma each_In (f : App.elem -> list App.effect) l e :
  In e (App.each f l) <-> exists x, In x l /\ In e (f x).
Proof.
  unfold App.each. rewrite in_concat. split.
  - intros (k & Hk & He). apply in_map_iff in Hk as (x & <- & Hx). eauto.
  - intros (x & Hx & He). exists (f x). split; [now apply in_map | exact He].
Qed.

(** X20. Under prefers-reduced-motion the constructors of
    ParallaxEffect, ScrollReveal and PartnerSlider register no listener
    and no observer, and every [data-reveal] element is given
    [revealed] at once; AnimatedCounters takes no notice of the
    preference, and observes every counter all the same. *)
Theorem reduced_motion_quiet p :
  App.reducedMotion p = true ->
  (forall c e,
     In c [App.CParallaxEffect; App.CScrollReveal; App.CPartnerSlider] ->
     In e (App.logOf (App.construct c p)) -> listens e = false)
  /\ (forall x, In x (App.reveals p) ->
        In (App.ClassAdd (App.El x) (str "revealed"))
           (App.logOf (App.construct App.CScrollReveal p)))
  /\ (forall x, In x (App.counters p) ->
        In (App.Observe (App.El x))
           (App.logOf (App.construct App.CAnimatedCounters p))).
Proof.
  intros Hr. split; [|split].
  - intros c e [<-|[<-|[<-|[]]]]; cbn [App.construct].
    + unfold App.ParallaxEffect. rewrite Hr. now destruct (App.layers p).
    + unfold App.ScrollReveal. rewrite Hr.
      destruct (App.reveals p) as [|x l] eqn:E; [now intros []|].
      cbn [App.logOf]. intros He. apply each_In in He as (y & _ & [<-|[]]).
      reflexivity.
    + unfold App.PartnerSlider. rewrite Hr.
      destruct (App.track p); [|now intros []].
      intros [<-|[]]. reflexivity.
  - intros x Hx. cbn [App.construct]. unfold App.ScrollReveal. rewrite Hr.
    destruct (App.reveals p) as [|y l] eqn:E; [contradiction|].
    cbn [App.logOf]. apply each_In. exists x. split; [exact Hx | now left].
  - intros x Hx. cbn [App.construct]. unfold App.AnimatedCounters.
    destruct (App.counters p) as [|y l] eqn:E; [contradiction|].
    cbn [App.logOf]. apply each_In. exists x. split; [exact Hx | now left].
Qed.

Lemma reduced_motion_quiet_witness :
  let p := App.Page (Some 0) None None [] [] None [] None None [1] [2; 3] []
             [4] None (Some 5) [] (fun _ => str "fade") true false true false
             false 0 in
  App.logOf (App.construct App.CScrollReveal p)
  = [App.ClassAdd (App.El 2) (str "revealed");
     App.ClassAdd (App.El 3) (str "revealed")]
  /\ In (App.Observe (App.El 4))
        (App.logOf (App.construct App.CAnimatedCounters p)).
Proof.
  intros p. split; [reflexivity|].
  apply (reduced_motion_quiet p); [reflexivity | now left].
Defined.

(* ================================================================== *)
(** * Counters whose target is not positive, or not a number *)

Lemma checkAtOnceFrom_spec count : forall z,
  checkAtOnceFrom z count = true ->
  forall k, (z <= k < z + Z.of_nat count)%Z -> checkAtOnce k = true.
Proof.
  induction count as [|n IH]; intros z H k Hk; [lia|].
  cbn [checkAtOnceFrom] in H. apply andb_true_iff in H as [H1 H2].
  destruct (Z.eq_dec k z) as [->|Hne]; [exact H1|].
  apply (IH (z + 1)%Z H2). lia.
Qed.

Lemma binary64_at_once : checkAtOnceFrom 0 1001 = true.
Proof. vm_compute. reflexivity. Qed.

(** A run that is over with its first call is the same with more fuel. *)
Lemma animate_first {num text : Type} (upd : num -> frame num text) c n :
  snd (animate upd 1 c) = true -> animate upd (S n) c = animate upd 1 c.
Proof.
  cbn [animate]. destruct (upd c) as [[c' w] [|]]; [|reflexivity].
  cbn. discriminate.
Qed.

(** X21. A counter whose target is zero or negative, or whose
    [data-counter] is no number, is not animated: the first call of
    either routine writes the target (or NaN) and asks for no further
    frame. In exact arithmetic for every such integer; in binary64 by
    evaluation for the integers from -1000 to 0, and for NaN. *)
Theorem counters_not_positive T fuel :
  (T <= 0)%Z -> 1 <= fuel ->
  animateCounter T fuel = ([[T]], true)
  /\ animateValue T fuel = ([[T; T]], true)
  /\ ((-1000 <= T)%Z ->
      atOnce (- numberOf (- T)) (animateCounterF (- numberOf (- T)) fuel) = true
      /\ atOnce (- numberOf (- T)) (animateValueF (- numberOf (- T)) fuel) = true)
  /\ animateCounterF nan fuel = ([[nan]], true)
  /\ animateValueF nan fuel = ([[nan; nan]], true).
Proof.
  intros HT Hf. destruct fuel as [|n]; [lia|]. clear Hf.
  assert (Hs : (inject_Z T <= 0 + stepOf T)%Q).
  { pose proof (stepOf_125 T) as E. rewrite Zle_Qle in HT.
    change (inject_Z 0) with 0%Q in HT. lra. }
  split; [|split; [|split; [|split]]].
  - unfold animateCounter. rewrite animateSRQ_step.
    now rewrite (proj2 (Qltb_false _ _) Hs).
  - unfold animateValue. rewrite animateACQ_step.
    rewrite (proj2 (Qltb_false _ _) Hs). now rewrite (Qfloor_clamped _ _ Hs).
  - intros Hlow.
    pose proof (checkAtOnceFrom_spec 1001 0 binary64_at_once (- T)%Z) as H.
    assert (Hk : (0 <= - T < 0 + Z.of_nat 1001)%Z) by lia.
    specialize (H Hk). unfold checkAtOnce in H.
    apply andb_true_iff in H as [H1 H2].
    assert (D1 : snd (animateCounterF (- numberOf (- T)) 1) = true)
      by (unfold atOnce in H1; now apply andb_true_iff in H1).
    assert (D2 : snd (animateValueF (- numberOf (- T)) 1) = true)
      by (unfold atOnce in H2; now apply andb_true_iff in H2).
    unfold animateCounterF, animateValueF in *.
    rewrite (animate_first _ _ n D1), (animate_first _ _ n D2). now split.
  - unfold animateCounterF. rewrite animate_first; reflexivity.
  - unfold animateValueF. rewrite animate_first; reflexivity.
Qed.

Lemma counters_not_positive_witness :
  animateCounter (-3) 200 = ([[(-3)%Z]], true)
  /\ animateValue 0 1 = ([[0%Z; 0%Z]], true).
Proof.
  split.
  - apply (counters_not_positive (-3) 200); lia.
  - apply (counters_not_positive 0 1); lia.
Defined.
